(** * Fantasy roster builder, contest join and leaderboard of the JPL app

    A shallow embedding of the [FantasyView] component: the budget-capped
    roster ([budgetUsed], [canAdd], the click handler of the player
    buttons), the contest join ([joinContest]) and the live leaderboard
    (the [Object.entries(scores).sort(..).slice(0, 20)] pipeline).

    Conventions of the embedding.
    - A JS array is a [list]; [Array.prototype.reduce] is [fold_left],
      [filter] is [filter], [find] is [find], [slice(0, k)] is [firstn k],
      [[...t, p]] is [t ++ [p]].
    - Credit sums and points are integers ([Z]); they stay far below 2^53,
      where JS numbers are exact.
    - Player identifiers and roles are strings compared with [===].

    Beyond the fantasy view the file follows the start-up hook
    ([useFirebase], [useJplRefs], the screens of [JPLApp]), the ordering of
    the match center and the seeding routine.  Where these build a
    document reference, the check the Firestore client runs on it (an even
    number of path segments) is part of the model. *)

From Stdlib Require Import List ZArith String Bool Arith Lia DecimalString.
From Stdlib Require Import DecimalNat Ascii.
From Stdlib Require Import Permutation Sorted.
Import ListNotations.

Local Open Scope string_scope.
Local Open Scope list_scope.
Local Open Scope Z_scope.

(** ** Players *)

Module Player.
(** [{ id: d.id, ...d.data() }]: only the fields the roster logic reads. *)
Record t : Type := mk { id : string; role : string; name : string }.
End Player.

Definition Player : Type := Player.t.

(** ** Roster builder *)

Definition maxPlayers : nat := 11.
Definition budgetCap : Z := 100.

(** [p.role === 'Batsman' ? 7 : p.role === 'Bowler' ? 8 : 9] *)
Definition creditCost (role : string) : Z :=
  if (role =? "Batsman")%string then 7
  else if (role =? "Bowler")%string then 8
  else 9.

(** [team.reduce((sum, p) => sum + creditCost(p.role), 0)] *)
Definition budgetUsed (team : list Player) : Z :=
  fold_left (fun sum p => sum + creditCost (Player.role p)) team 0.

(** [team.find((x) => x.id === p.id)] *)
Definition findById (team : list Player) (p : Player) : option Player :=
  find (fun x => (Player.id x =? Player.id p)%string) team.

(** JS truthiness of the result of [find]: an object is truthy,
    [undefined] is falsy. *)
Definition truthy {A : Type} (o : option A) : bool :=
  match o with Some _ => true | None => false end.

Definition canAdd (team : list Player) (p : Player) : bool :=
  (List.length team <? maxPlayers)%nat
  && negb (truthy (findById team p))
  && (budgetUsed team + creditCost (Player.role p) <=? budgetCap).

(** [const selected = !!team.find((x) => x.id === p.id)] *)
Definition selected (team : list Player) (p : Player) : bool :=
  truthy (findById team p).

(** [t.filter((x) => x.id !== p.id)] *)
Definition without (p : Player) (t : list Player) : list Player :=
  filter (fun x => negb (Player.id x =? Player.id p)%string) t.

(** The click handler of a player button.  [selected] and [canAdd] are
    closed over the [team] of the render that created the handler; the
    handler hands React a state updater [t => ...]. *)
Definition onClick (team : list Player) (p : Player)
  : list Player -> list Player :=
  if selected team p
  then fun t => without p t
  else if canAdd team p
       then fun t => t ++ [p]
       else fun t => t.

(** A click is a discrete event: React re-renders before the next one, so
    the updater runs on the very roster the handler was rendered with. *)
Definition toggle (team : list Player) (p : Player) : list Player :=
  onClick team p team.

(** Rosters reachable from the empty one ([useState([])]) by toggles. *)
Inductive reachable : list Player -> Prop :=
| reach_init : reachable []
| reach_toggle (t : list Player) (p : Player) :
    reachable t -> reachable (toggle t p).

(** The buttons rendered: [players.slice(0, 20).map(...)]. *)
Definition offered (players : list Player) : list Player :=
  firstn 20 players.

(** Rosters reachable through the rendered buttons of a player list. *)
Inductive ui_reachable (players : list Player) : list Player -> Prop :=
| ui_init : ui_reachable players []
| ui_click (t : list Player) (p : Player) :
    ui_reachable players t ->
    In p (offered players) ->
    ui_reachable players (toggle t p).

(** The roster's credit total as the spec words it: the sum of the
    per-player costs. *)
Definition cost (team : list Player) : Z :=
  fold_right Z.add 0 (map (fun p => creditCost (Player.role p)) team).

(** The roster invariants of the data model. *)
Definition roster_inv (team : list Player) : Prop :=
  cost team <= 100 /\ (List.length team <= 11)%nat /\ NoDup (map Player.id team).

(** [creditCost] as the spec words it: a lookup over a closed role set
    that fails elsewhere. *)
Definition creditCost_spec (role : string) : option Z :=
  if (role =? "Batsman")%string then Some 7
  else if (role =? "Bowler")%string then Some 8
  else if (role =? "All-rounder")%string then Some 9
  else None.

(** ** Leaderboard *)

Module Score.
(** A value of the [userScores] object.  [points] may be missing. *)
Record t : Type := mk { points : option Z }.
End Score.

(** [Object.entries(scores)]: the own properties of the scores object in
    property order (integer-like keys ascending, then the other keys as
    inserted).  This list is the order of the input for the sort.  A value
    may itself be [null] or [undefined]. *)
Definition Entries : Type := list (string * option Score.t).

(** [s?.points || 0]: a missing entry, a missing [points] and the falsy
    number [0] all give [0]. *)
Definition pointsOf (s : option Score.t) : Z :=
  match s with
  | None => 0
  | Some e =>
      match Score.points e with
      | None => 0
      | Some n => if n =? 0 then 0 else n
      end
  end.

(** The points an entry [[uid, s]] counts for. *)
Definition entryPoints (e : string * option Score.t) : Z := pointsOf (snd e).

(** [(a, b) => (b[1]?.points || 0) - (a[1]?.points || 0)] *)
Definition byPointsDesc (a b : string * option Score.t) : Z :=
  entryPoints b - entryPoints a.

Section Sort.
Context {A : Type} (cmp : A -> A -> Z).

(** [Array.prototype.sort(cmp)] is a stable sort (ECMAScript 2019): it
    places [x] before [y] when [cmp x y < 0] and keeps the input order
    when [cmp x y = 0].  The engine's algorithm is not fixed by the
    language; insertion from the right is the reference stable sort
    here, and [stable_sort_unique] below shows that every stable sort
    returns the same array. *)
Fixpoint insert (x : A) (l : list A) : list A :=
  match l with
  | [] => [x]
  | y :: l' => if cmp x y <=? 0 then x :: l else y :: insert x l'
  end.

Definition sort (l : list A) : list A := fold_right insert [] l.
End Sort.

(** [Object.entries(scores).sort(byPointsDesc)] *)
Definition ranking (scores : Entries) : Entries := sort byPointsDesc scores.

(** One rendered leaderboard line: [i + 1], [uid], [s?.points || 0]. *)
Record Row : Type := mkRow { rank : nat; uid : string; pts : Z }.

(** [.map(([uid, s], i) => ...)] starting at index [i]. *)
Fixpoint rows_from (i : nat) (l : Entries) : list Row :=
  match l with
  | [] => []
  | (u, s) :: l' => mkRow (i + 1) u (pointsOf s) :: rows_from (S i) l'
  end.

(** [.slice(0, 20)] of the ranking. *)
Definition topK (scores : Entries) : Entries := firstn 20 (ranking scores).

Definition leaderboard (scores : Entries) : list Row :=
  rows_from 0 (topK scores).

(** What a sort has to satisfy to be a stable descending sort of [l] by
    the key [key]: same elements, keys descending, and elements of equal
    key in their input order. *)
Definition stable_sort_of {A : Type} (key : A -> Z) (l out : list A) : Prop :=
  Permutation l out
  /\ StronglySorted (fun a b => key b <= key a) out
  /\ forall k, filter (fun a => key a =? k) out = filter (fun a => key a =? k) l.

(** ** Contest join *)

(** Values written to the document store. *)
#[warnings="-register-all"]
Inductive value : Type :=
| VStr (s : string)
| VNum (n : Z)
| VList (l : list value)
| VTimestamp            (* the [serverTimestamp()] sentinel *)
| VNull
| VUndefined.

Definition document : Type := list (string * value).

(** A document or collection reference, as its path segments.  The
    checks the store client runs on a reference are not part of the
    model. *)
Definition path : Type := list string.

(** [ref.parent] drops the last segment. *)
Definition parent (p : path) : path := removelast p.

Record Write : Type := mkWrite { w_path : path; w_data : document }.

Module Contest.
(** The contest object kept in component state. *)
Record t : Type := mk { id : string; matchId : value; status : value }.
End Contest.

(** The two fields of a stored contest document that the view can reach. *)
Record ContestData : Type :=
  mkContestData { cd_matchId : value; cd_status : value }.

(** [(d) => setContest({ id: d.id, ...d.data() })] on a snapshot with
    identifier [docId]; [data] is [None] when the document does not exist
    ([d.data()] is [undefined] and spreads to nothing).  Stored contest
    documents carry their own identifier in [id], as the seed writes them. *)
Definition contest_of_snapshot (docId : string) (data : option ContestData)
  : Contest.t :=
  match data with
  | Some cd => Contest.mk docId (cd_matchId cd) (cd_status cd)
  | None => Contest.mk docId VUndefined VUndefined
  end.

(** A contest the spec calls known and open. *)
Definition known_open (data : option ContestData) : Prop :=
  exists cd, data = Some cd /\ cd_status cd = VStr "open".

Record DbRefs : Type := mkDbRefs { baseDoc : path }.

(** [doc(db, 'artifacts', appId, 'public', 'data', 'jpl_stats')] *)
Definition useJplRefs (appId : string) : DbRefs :=
  mkDbRefs ["artifacts"; appId; "public"; "data"; "jpl_stats"].

Record User : Type := mkUser { user_uid : string }.

Module View.
(** The state and props of [FantasyView] that [joinContest] closes over
    or sets. *)
Record t : Type := mk {
  dbRefs : option DbRefs;
  user : option User;
  contest : option Contest.t;
  team : list Player;
  joining : bool;
  joined : bool
}.
End View.

(** What the environment decides during one call: the auto-generated
    identifier of [doc(collection(..))] and, for the [k]-th [setDoc] of the
    call, whether the store accepts it ([true]) or rejects it. *)
Record Env : Type := mkEnv { autoId : string; setDoc_ok : nat -> bool }.

(** The machine [joinContest] runs on: the view, the writes the store has
    accepted (oldest first), the alerts shown, the console, and the
    number of [setDoc] calls issued so far in this call. *)
Record World : Type := mkWorld {
  view : View.t;
  store : list Write;
  alerts : list string;
  console : list string;
  calls : nat
}.

(** A computation either completes or throws. *)
Inductive outcome (A : Type) : Type :=
| Done (a : A)
| Thrown (e : string).
Arguments Done {A} a.
Arguments Thrown {A} e.

Definition M (A : Type) : Type := World -> outcome A * World.

Definition ret {A : Type} (a : A) : M A := fun w => (Done a, w).

Definition bind {A B : Type} (m : M A) (k : A -> M B) : M B :=
  fun w =>
    match m w with
    | (Done a, w') => k a w'
    | (Thrown e, w') => (Thrown e, w')
    end.

Notation "x <- m ;; k" := (bind m (fun x => k))
  (at level 61, m at next level, right associativity).
Notation "m ;; k" := (bind m (fun _ => k))
  (at level 61, right associativity).

(** [try { m } catch (e) { h e }] *)
Definition try_catch {A : Type} (m : M A) (h : string -> M A) : M A :=
  fun w =>
    match m w with
    | (Done a, w') => (Done a, w')
    | (Thrown e, w') => h e w'
    end.

(** [try { m } finally { f }] *)
Definition try_finally {A : Type} (m : M A) (f : M unit) : M A :=
  fun w =>
    match m w with
    | (r, w') =>
        match f w' with
        | (Done _, w'') => (r, w'')
        | (Thrown e, w'') => (Thrown e, w'')
        end
    end.

Definition set_view (f : View.t -> View.t) : M unit :=
  fun w => (Done tt, mkWorld (f (view w)) (store w) (alerts w) (console w) (calls w)).

Definition setJoining (b : bool) : M unit :=
  set_view (fun v => View.mk (View.dbRefs v) (View.user v) (View.contest v)
                             (View.team v) b (View.joined v)).

Definition setJoined (b : bool) : M unit :=
  set_view (fun v => View.mk (View.dbRefs v) (View.user v) (View.contest v)
                             (View.team v) (View.joining v) b).

Definition alert (msg : string) : M unit :=
  fun w => (Done tt, mkWorld (view w) (store w) (alerts w ++ [msg]) (console w) (calls w)).

Definition console_error (e : string) : M unit :=
  fun w => (Done tt, mkWorld (view w) (store w) (alerts w) (console w ++ [e]) (calls w)).

(** [await setDoc(ref, data)]: the store commits the document, or the
    promise rejects and the [await] throws. *)
Definition setDoc (env : Env) (ref : path) (data : document) : M unit :=
  fun w =>
    if setDoc_ok env (calls w)
    then (Done tt, mkWorld (view w) (store w ++ [mkWrite ref data])
                           (alerts w) (console w) (S (calls w)))
    else (Thrown "setDoc rejected",
          mkWorld (view w) (store w) (alerts w) (console w) (S (calls w))).

(** [doc(dbRefs.baseDoc.parent.parent, 'users', user.uid)] *)
Definition userFantasyBase (refs : DbRefs) (u : User) : path :=
  parent (parent (baseDoc refs)) ++ ["users"; user_uid u].

(** [doc(collection(userFantasyBase, 'jpl_fantasy'))], an auto-id document. *)
Definition jplFantasy (env : Env) (refs : DbRefs) (u : User) : path :=
  userFantasyBase refs u ++ ["jpl_fantasy"; autoId env].

Definition markerDoc : document :=
  [("createdAt", VTimestamp); ("lastActionAt", VTimestamp)].

Definition teamDoc (team : list Player) : document :=
  [("name", VStr "My XI");
   ("players", VList (map (fun p => VStr (Player.id p)) team));
   ("budgetUsed", VNum (budgetUsed team));
   ("maxPlayers", VNum (Z.of_nat maxPlayers));
   ("budgetCap", VNum budgetCap);
   ("createdAt", VTimestamp)].

Definition membershipDoc (c : Contest.t) : document :=
  [("contestId", VStr (Contest.id c));
   ("matchId", Contest.matchId c);
   ("teamId", VStr "team_current");
   ("joinedAt", VTimestamp)].

(** The three writes of the [try] block, in program order. *)
Definition joinWrites (env : Env) (refs : DbRefs) (u : User) (c : Contest.t)
  (team : list Player) : list Write :=
  [mkWrite (jplFantasy env refs u) markerDoc;
   mkWrite (jplFantasy env refs u ++ ["teams"; "team_current"]) (teamDoc team);
   mkWrite (jplFantasy env refs u ++ ["contests"; Contest.id c]) (membershipDoc c)].

(** [joinContest], called from the render whose state is [v]. *)
Definition joinContest (env : Env) (v : View.t) : M unit :=
  match View.dbRefs v, View.user v, View.contest v with
  | Some refs, Some u, Some c =>
      if negb (List.length (View.team v) =? maxPlayers)%nat
      then alert "Select exactly 11 players to join."
      else
        setJoining true ;;
        try_finally
          (try_catch
             (setDoc env (jplFantasy env refs u) markerDoc ;;
              setDoc env (jplFantasy env refs u ++ ["teams"; "team_current"])
                     (teamDoc (View.team v)) ;;
              setDoc env (jplFantasy env refs u ++ ["contests"; Contest.id c])
                     (membershipDoc c) ;;
              setJoined true)
             (fun e => console_error e ;; alert "Failed to join contest."))
          (setJoining false)
  | _, _, _ => ret tt
  end.

(** Running the handler of the Join button on a world: the handler of the
    current render, with a fresh [setDoc] counter. *)
Definition join (env : Env) (w : World) : outcome unit * World :=
  joinContest env (view w)
    (mkWorld (view w) (store w) (alerts w) (console w) 0).

(** The writes a call of [join] added to the store. *)
Definition written (w w' : World) : list Write :=
  skipn (List.length (store w)) (store w').

(** ** Sample data *)

(** The players the seeding routine writes: for [i] from 1 to 30,
    [{ id: `player_${i}`, name: `Player ${i}`, role: roles[i % 3] }] with
    [roles = ['Batsman', 'Bowler', 'All-rounder']]. *)
Definition decimal (n : nat) : string :=
  NilEmpty.string_of_uint (Nat.to_uint n).

Definition seedPlayer (i : nat) : Player :=
  Player.mk ("player_" ++ decimal i)%string
            (nth (i mod 3) ["Batsman"; "Bowler"; "All-rounder"] "")
            ("Player " ++ decimal i)%string.

Definition seedPlayers : list Player := map seedPlayer (seq 1 30).

Definition player1 : Player := seedPlayer 1.
Definition player2 : Player := seedPlayer 2.

(** The first eleven seeded players, a full roster. *)
Definition seedXI : list Player := firstn 11 seedPlayers.

(** A scores object with a tie, a missing [points] and a [null] value. *)
Definition sampleScores : Entries :=
  [("u1", Some (Score.mk (Some 42)));
   ("u2", Some (Score.mk (Some 58)));
   ("u3", Some (Score.mk (Some 58)));
   ("u4", Some (Score.mk None));
   ("u5", None)].

(** How many of the three writes of a call the store accepts before the
    first rejection. *)
Definition accepted (env : Env) : nat :=
  if setDoc_ok env 0 then
    if setDoc_ok env 1 then
      if setDoc_ok env 2 then 3%nat else 2%nat
    else 1%nat
  else 0%nat.

(** A store that accepts everything, and one that rejects the second
    write of a call. *)
Definition envOk : Env := mkEnv "auto_1" (fun _ => true).
Definition envFailSecond : Env := mkEnv "auto_1" (fun k => negb (k =? 1)%nat).

Definition openContest : ContestData := mkContestData (VStr "match_2") (VStr "open").
Definition closedContest : ContestData := mkContestData (VStr "match_2") (VStr "closed").

(** A view with a full roster, ready to join the contest whose snapshot
    carried [data]. *)
Definition readyView (data : option ContestData) : View.t :=
  View.mk (Some (useJplRefs "app")) (Some (mkUser "uid_1"))
          (Some (contest_of_snapshot "contest_1" data)) seedXI false false.

Definition readyWorld (data : option ContestData) : World :=
  mkWorld (readyView data) [] [] [] 0.

(** The same view with one player short of a full roster. *)
Definition shortWorld : World :=
  mkWorld (View.mk (Some (useJplRefs "app")) (Some (mkUser "uid_1"))
                   (Some (contest_of_snapshot "contest_1" (Some openContest)))
                   (firstn 10 seedPlayers) false false)
          [] [] [] 0.

(** ** What the fantasy view renders *)

(** The three looks of a player button, from its [className]. *)
Inductive ButtonStyle : Type := Highlighted | Plain | Dimmed.

(** [selected ? '..emerald..' : canAdd(p) ? '..hover..' : '..opacity-60'] *)
Definition buttonStyle (team : list Player) (p : Player) : ButtonStyle :=
  if selected team p then Highlighted
  else if canAdd team p then Plain
  else Dimmed.

(** The buttons of [ps] clicked one after the other, from roster [t]. *)
Definition clicks (t : list Player) (ps : list Player) : list Player :=
  fold_left toggle ps t.

(** [disabled={joining || team.length !== maxPlayers}] of the Join button. *)
Definition joinDisabled (v : View.t) : bool :=
  View.joining v || negb (List.length (View.team v) =? maxPlayers)%nat.

(** [scores?.[user.uid]]: the value stored under the key, [undefined] when
    the object has no such key.  (A key that only the prototype answers
    gives a value without [points], which counts like [undefined] below.) *)
Definition lookupScore (scores : Entries) (k : string) : option Score.t :=
  match find (fun e => (fst e =? k)%string) scores with
  | Some (_, s) => s
  | None => None
  end.

(** [const myScore = user ? scores?.[user.uid]?.points || 0 : 0] *)
Definition myScore (user : option User) (scores : Entries) : Z :=
  match user with
  | Some u => pointsOf (lookupScore scores (user_uid u))
  | None => 0
  end.

(** [uid === user?.uid], the test that highlights a leaderboard line. *)
Definition isMine (user : option User) (r : Row) : bool :=
  match user with
  | Some u => (uid r =? user_uid u)%string
  | None => false
  end.

(** [Object.entries(scores).length === 0 && <div>No scores yet...</div>] *)
Definition showsPlaceholder (scores : Entries) : bool :=
  (List.length scores =? 0)%nat.

(** A second accepting store, with another auto-generated identifier. *)
Definition envOk2 : Env := mkEnv "auto_2" (fun _ => true).

(** ** Match center *)

Module Match.
(** A document of the [matches] collection: what the sorter reads. *)
Record t : Type := mk { id : string; status : option string }.
End Match.

(** The property names every object answers through [Object.prototype]. *)
Definition objectPrototypeKeys : list string :=
  ["constructor"; "__proto__"; "hasOwnProperty"; "isPrototypeOf";
   "propertyIsEnumerable"; "toLocaleString"; "toString"; "valueOf";
   "__defineGetter__"; "__defineSetter__"; "__lookupGetter__";
   "__lookupSetter__"].

(** [order[status] ?? 3] with [order = { live: 0, upcoming: 1, completed: 2 }],
    read as a number.  A missing status and a string the object does not
    know give 3.  A name of [objectPrototypeKeys] finds an inherited
    member, which is not a number: [None]. *)
Definition statusOrder (status : option string) : option Z :=
  match status with
  | None => Some 3
  | Some s =>
      if (s =? "live")%string then Some 0
      else if (s =? "upcoming")%string then Some 1
      else if (s =? "completed")%string then Some 2
      else if existsb (String.eqb s) objectPrototypeKeys then None
      else Some 3
  end.

(** [(a, b) => (order[a.status] ?? 3) - (order[b.status] ?? 3)].  With a
    side that is not a number the difference is [NaN], which the sort
    reads as [+0]. *)
Definition byStatus (a b : Match.t) : Z :=
  match statusOrder (Match.status a), statusOrder (Match.status b) with
  | Some x, Some y => x - y
  | _, _ => 0
  end.

(** [list.sort(byStatus)] in the snapshot callback of the matches. *)
Definition sortMatches (l : list Match.t) : list Match.t := sort byStatus l.

Definition hasStatus (s : string) (m : Match.t) : bool :=
  match Match.status m with
  | Some x => (x =? s)%string
  | None => false
  end.

Definition otherStatus (m : Match.t) : bool :=
  negb (hasStatus "live" m) && negb (hasStatus "upcoming" m)
  && negb (hasStatus "completed" m).

(** A status the comparator can order. *)
Definition orderable (m : Match.t) : Prop :=
  statusOrder (Match.status m) <> None.

(** The order number of a match, [3] standing in where there is none,
    and the matches of one order number. *)
Definition rk (m : Match.t) : Z :=
  match statusOrder (Match.status m) with Some x => x | None => 3 end.

Definition grp (r : Z) (l : list Match.t) : list Match.t :=
  filter (fun m => rk m =? r) l.

(** The two matches the seeding routine writes. *)
Definition seedMatches : list Match.t :=
  [Match.mk "match_1" (Some "completed"); Match.mk "match_2" (Some "upcoming")].

(** ** Start-up: configuration and sign-in *)

(** The [status] strings the hook ever sets. *)
Inductive Status : Type := StInit | StAuthing | StReady | StError.

(** The state of [useFirebase].  The three handles [app], [db] and [auth]
    are opaque; the model keeps whether each is set. *)
Module Fb.
Record t : Type := mk {
  app : bool;
  db : bool;
  auth : bool;
  user : option User;
  appId : option string;
  status : Status;
  error : option string
}.
End Fb.

(** [useState({ app: null, db: null, auth: null, user: null, appId: null,
    status: 'init', error: null })] *)
Definition fbInitial : Fb.t :=
  Fb.mk false false false None None StInit None.

(** An opaque [__firebase_config] object. *)
Record FirebaseConfig : Type := mkConfig { projectId : string }.

(** The three globals [init] reads from [window]. *)
Record Window : Type := mkWindow {
  app_id : option string;
  firebase_config : option FirebaseConfig;
  initial_auth_token : option string
}.

(** JS truthiness of a string that may be missing: the empty string is
    falsy. *)
Definition truthyS (o : option string) : bool :=
  match o with
  | Some s => negb (s =? "")%string
  | None => false
  end.

(** What the Firebase SDK answers during one [init]: the message of the
    error thrown while the handles are created, if any, and for each kind
    of sign-in the message of its rejection, if any. *)
Record AuthEnv : Type := mkAuthEnv {
  sdk_error : option string;
  token_error : option string;
  anon_error : option string
}.

Inductive SignIn : Type := CustomToken (token : string) | Anonymous.

(** What [init] leaves behind: the state, the sign-ins attempted in
    order, and whether the [onAuthStateChanged] listener got registered. *)
Record Boot : Type := mkBoot {
  boot_state : Fb.t;
  attempts : list SignIn;
  listening : bool
}.

(** [setState((s) => ({ ...s, status: 'error', error: msg }))] *)
Definition setError (msg : string) (s : Fb.t) : Fb.t :=
  Fb.mk (Fb.app s) (Fb.db s) (Fb.auth s) (Fb.user s) (Fb.appId s)
        StError (Some msg).

(** [setState((s) => ({ ...s, app, auth, db, appId, status: 'authing' }))] *)
Definition setHandles (id : option string) (s : Fb.t) : Fb.t :=
  Fb.mk true true true (Fb.user s) id StAuthing (Fb.error s).

(** The body of [init], from state [s]. *)
Definition init (win : Window) (env : AuthEnv) (s : Fb.t) : Boot :=
  if negb (truthyS (app_id win)) || negb (truthy (firebase_config win))
  then mkBoot (setError "Missing __app_id or __firebase_config on window." s)
              [] false
  else
    match sdk_error env with
    | Some e => mkBoot (setError e s) [] false
    | None =>
        let s1 := setHandles (app_id win) s in
        let anonymous (before : list SignIn) :=
          match anon_error env with
          | None => mkBoot s1 (before ++ [Anonymous]) true
          | Some e => mkBoot (setError e s1) (before ++ [Anonymous]) false
          end in
        match initial_auth_token win with
        | Some tok =>
            if truthyS (Some tok)
            then match token_error env with
                 | None => mkBoot s1 [CustomToken tok] true
                 | Some _ => anonymous [CustomToken tok]
                 end
            else anonymous []
        | None => anonymous []
        end
    end.

(** The listener:
    [(user) => setState((s) => ({ ...s, user, status: user ? 'ready' : 'authing' }))] *)
Definition onAuth (s : Fb.t) (u : option User) : Fb.t :=
  Fb.mk (Fb.app s) (Fb.db s) (Fb.auth s) u (Fb.appId s)
        (if truthy u then StReady else StAuthing) (Fb.error s).

(** The state of the hook after [init] and the auth events [events], which
    reach the listener only if it was registered. *)
Definition fbAfter (win : Window) (env : AuthEnv) (events : list (option User))
  : Fb.t :=
  let b := init win env fbInitial in
  if listening b then fold_left onAuth events (boot_state b)
  else boot_state b.

(** *** References as the Firestore client checks them *)

(** [s.split('/')] *)
Fixpoint splitSlash (s : string) : list string :=
  match s with
  | EmptyString => [EmptyString]
  | String a s' =>
      if (a =? "/")%char then EmptyString :: splitSlash s'
      else match splitSlash s' with
           | x :: r => String a x :: r
           | [] => [String a EmptyString]
           end
  end.

(** [s.indexOf('//') >= 0] *)
Fixpoint hasDoubleSlash (s : string) : bool :=
  match s with
  | EmptyString => false
  | String a s' =>
      match s' with
      | String b _ => (a =? "/")%char && (b =? "/")%char
      | EmptyString => false
      end
      || hasDoubleSlash s'
  end.

(** The segments the client makes of the arguments of [doc(db, ...)]:
    an argument holding [//] is refused; every argument is cut at its
    slashes and the empty pieces are dropped. *)
Definition segmentsOf (components : list string) : outcome path :=
  if existsb hasDoubleSlash components
  then Thrown "Invalid segment. Paths must not contain // in them."
  else Done (flat_map
               (fun c => filter (fun x => negb (x =? "")%string) (splitSlash c))
               components).

(** [doc(db, c1, c2, ...)]: the client refuses a document reference whose
    number of segments is odd. *)
Definition docRef (components : list string) : outcome path :=
  match segmentsOf components with
  | Thrown e => Thrown e
  | Done p =>
      if Nat.even (List.length p) then Done p
      else Thrown "Invalid document reference. Document references must have an even number of segments."
  end.

(** [doc(db, 'artifacts', appId, 'public', 'data', 'jpl_stats')], the
    first step of [useJplRefs] and of the seeding routine. *)
Definition baseDocRef (appId : string) : outcome path :=
  docRef ["artifacts"; appId; "public"; "data"; "jpl_stats"].

(** A string without a slash. *)
Fixpoint noSlash (s : string) : bool :=
  match s with
  | EmptyString => true
  | String a s' => negb (a =? "/")%char && noSlash s'
  end.

(** *** The hooks and the screens of [JPLApp] *)

(** The hook [useJplRefs(db, appId)] as it runs in a render: [null]
    unless both arguments are set; otherwise it builds the base reference,
    and the render throws if the client refuses it. *)
Definition useJplRefsChecked (db : bool) (appId : option string)
  : outcome (option DbRefs) :=
  if negb db || negb (truthyS appId) then Done None
  else match appId with
       | Some id =>
           match baseDocRef id with
           | Done p => Done (Some (mkDbRefs p))
           | Thrown e => Thrown e
           end
       | None => Done None
       end.

(** What [JPLApp] renders. *)
Inductive Screen : Type :=
| Connecting
| SetupError (msg : string)
| MainScreen.

(** [String(fb.error)] *)
Definition errorText (e : option string) : string :=
  match e with Some m => m | None => "null" end.

(** One render of [JPLApp] in hook state [s]: the hooks run first, of
    which [useJplRefs] can throw; then the status picks the screen. *)
Definition render (s : Fb.t) : outcome Screen :=
  match useJplRefsChecked (Fb.db s) (Fb.appId s) with
  | Thrown e => Thrown e
  | Done _ =>
      Done (match Fb.status s with
            | StInit | StAuthing => Connecting
            | StError => SetupError (errorText (Fb.error s))
            | StReady => MainScreen
            end)
  end.

(** [fb.status === 'ready' && fb.db && fb.appId], the test of the seeding
    effect. *)
Definition seedingStarts (s : Fb.t) : bool :=
  match Fb.status s with
  | StReady => Fb.db s && truthyS (Fb.appId s)
  | _ => false
  end.

(** Globals with an application identifier of two segments, and globals
    with a plain one. *)
Definition sampleWindow : Window :=
  mkWindow (Some "jpl/prod") (Some (mkConfig "jpl")) (Some "token_1").

Definition plainWindow : Window :=
  mkWindow (Some "app") (Some (mkConfig "jpl")) (Some "token_1").

(** A run in which the custom token is rejected. *)
Definition tokenRejected : AuthEnv :=
  mkAuthEnv None (Some "auth/invalid-custom-token") None.

(** What holds of the hook's state once the listener is registered. *)
Definition listeningInv (s : Fb.t) : Prop :=
  Fb.db s = true /\ truthyS (Fb.appId s) = true
  /\ Fb.status s <> StError
  /\ (Fb.status s = StReady -> Fb.user s <> None).

(** ** Seeding *)

(** The seeding routine is followed through the documents it creates.
    The store is the list of the paths of its documents; the contents
    (random statistics, dates, server timestamps) decide nothing about
    which documents get written and are left out. *)

Definition path_eqb (a b : path) : bool :=
  if list_eq_dec string_dec a b then true else false.

(** A document directly inside the collection [col]. *)
Definition inCollection (col : path) (p : path) : bool :=
  match p with
  | [] => false
  | _ :: _ => path_eqb (removelast p) col
  end.

(** [doc(collection(baseDoc, col), id)] for the base document at [base] *)
Definition colDoc (base : path) (col id : string) : path :=
  base ++ [col; id].

Definition teamNames : list string :=
  ["Jain Stallions"; "Solar Titans"; "Emerald Strikers"; "Dharma Dynamos";
   "Ahimsa Aces"; "Unity Warriors"; "Jinendra Jaguars"; "Ratnatraya Riders"].

(** [`team_${i + 1}`] for [i] below [teamNames.length] *)
Definition teamIds : list string :=
  map (fun i => ("team_" ++ decimal (i + 1))%string)
      (seq 0 (List.length teamNames)).

(** The documents of the [setDoc] calls of the routine, in program order. *)
Definition seedPaths (base : path) : list path :=
  map (colDoc base "teams") teamIds
  ++ map (fun i => colDoc base "players" ("player_" ++ decimal i)%string)
         (seq 1 30)
  ++ [colDoc base "matches" "match_1"; colDoc base "matches" "match_2";
      colDoc base "fixtures" "match_1"; colDoc base "fixtures" "match_2";
      colDoc base "meta" "points_table"; colDoc base "meta" "leaderboards";
      colDoc base "fantasy_contests" "contest_1";
      colDoc base "meta" "fantasy_scores_match_2"].

(** The contest document the fantasy view subscribes to:
    [doc(dbRefs.col('fantasy_contests'), 'contest_1')]. *)
Definition contestPath (base : path) : path :=
  colDoc base "fantasy_contests" "contest_1".

(** [teamsSnap.empty] for [getDocs(teamsCol)] *)
Definition teamsEmpty (base : path) (docs : list path) : bool :=
  negb (existsb (inCollection (base ++ ["teams"])) docs).

(** What the store answers during one run: whether [getDocs] resolves, and
    whether the [k]-th [setDoc] of the run is accepted. *)
Record SeedEnv : Type := mkSeedEnv { getDocs_ok : bool; seed_ok : nat -> bool }.

(** The awaited [setDoc] calls one after the other, from call number [k];
    the first rejection throws out of the routine. *)
Fixpoint writeDocs (ok : nat -> bool) (k : nat) (ps : list path)
  (docs : list path) : outcome unit * list path :=
  match ps with
  | [] => (Done tt, docs)
  | p :: ps' =>
      if ok k then writeDocs ok (S k) ps' (docs ++ [p])
      else (Thrown "setDoc rejected", docs)
  end.

(** The routine: the base reference is built first and the client may
    refuse it; then the teams are read, and the documents written unless
    a team exists. *)
Definition seedInitialDataIfNeeded (env : SeedEnv) (appId : string)
  (docs : list path) : outcome unit * list path :=
  match baseDocRef appId with
  | Thrown e => (Thrown e, docs)
  | Done base =>
      if negb (getDocs_ok env) then (Thrown "getDocs rejected", docs)
      else if negb (teamsEmpty base docs) then (Done tt, docs)
      else writeDocs (seed_ok env) 0 (seedPaths base) docs
  end.

(** Pairwise distinctness of paths, decided. *)
Fixpoint distinctb (l : list path) : bool :=
  match l with
  | [] => true
  | p :: l' => negb (existsb (path_eqb p) l') && distinctb l'
  end.

(** A store that accepts the first three writes of a run and rejects the
    fourth. *)
Definition seedEnvFailFourth : SeedEnv :=
  mkSeedEnv true (fun k => (k <? 3)%nat).

(** The base document for the application identifier [jpl/prod]. *)
Definition sampleBase : path :=
  ["artifacts"; "jpl"; "prod"; "public"; "data"; "jpl_stats"].

(** * Properties *)

(** ** Credit costs and the budget *)

Lemma creditCost_range (role : string) : 7 <= creditCost role <= 9.
Proof.
  unfold creditCost.
  destruct (role =? "Batsman")%string; [lia|].
  destruct (role =? "Bowler")%string; lia.
Qed.

Lemma fold_left_budget (team : list Player) (acc : Z) :
  fold_left (fun sum p => sum + creditCost (Player.role p)) team acc
  = acc + cost team.
Proof.
  revert acc.
  induction team as [|q team IH]; intros acc; cbn [fold_left].
  - unfold cost; simpl; lia.
  - rewrite IH. unfold cost; simpl. lia.
Qed.

(** The [reduce] of the source computes the sum of the players' costs. *)
Lemma budgetUsed_cost (team : list Player) : budgetUsed team = cost team.
Proof. unfold budgetUsed. rewrite fold_left_budget. lia. Qed.

Lemma cost_cons (p : Player) (team : list Player) :
  cost (p :: team) = creditCost (Player.role p) + cost team.
Proof. reflexivity. Qed.

Lemma cost_app (t1 t2 : list Player) : cost (t1 ++ t2) = cost t1 + cost t2.
Proof.
  induction t1 as [|q t1 IH]; [reflexivity|].
  rewrite <- app_comm_cons, !cost_cons, IH. lia.
Qed.

(** ** Membership by identifier *)

Lemma findById_None (team : list Player) (p : Player) :
  findById team p = None <-> ~ In (Player.id p) (map Player.id team).
Proof.
  unfold findById.
  induction team as [|q team IH]; simpl.
  - split; [intros _ []|reflexivity].
  - destruct (Player.id q =? Player.id p)%string eqn:E.
    + apply String.eqb_eq in E. split; [discriminate|].
      intros H. exfalso. apply H. now left.
    + apply String.eqb_neq in E. rewrite IH. tauto.
Qed.

Lemma selected_true (team : list Player) (p : Player) :
  selected team p = true <-> In (Player.id p) (map Player.id team).
Proof.
  unfold selected.
  destruct (findById team p) eqn:E; simpl.
  - split; [intros _|reflexivity].
    destruct (in_dec string_dec (Player.id p) (map Player.id team)) as [H|H];
      [exact H|].
    apply findById_None in H. congruence.
  - apply findById_None in E. split; [discriminate|tauto].
Qed.

Lemma selected_false (team : list Player) (p : Player) :
  selected team p = false <-> ~ In (Player.id p) (map Player.id team).
Proof.
  rewrite <- selected_true. destruct (selected team p); split; congruence.
Qed.

Lemma In_selected (team : list Player) (p : Player) :
  In p team -> selected team p = true.
Proof. intros H. apply selected_true. now apply in_map. Qed.

(** ** Removing a player *)

Lemma without_absent (p : Player) (t : list Player) :
  ~ In (Player.id p) (map Player.id t) -> without p t = t.
Proof.
  induction t as [|q t IH]; simpl; intros H; [reflexivity|].
  destruct (Player.id q =? Player.id p)%string eqn:E; simpl.
  - apply String.eqb_eq in E. exfalso. apply H. now left.
  - rewrite IH; [reflexivity|tauto].
Qed.

Lemma without_split (p : Player) (l1 l2 : list Player) :
  NoDup (map Player.id (l1 ++ p :: l2)) ->
  without p (l1 ++ p :: l2) = l1 ++ l2.
Proof.
  intros ND. unfold without.
  rewrite map_app in ND. simpl in ND.
  pose proof (NoDup_remove_2 _ _ _ ND) as Hnot.
  rewrite filter_app. simpl. rewrite String.eqb_refl. simpl.
  change (without p l1 ++ without p l2 = l1 ++ l2).
  rewrite !without_absent; [reflexivity| |];
    intros H; apply Hnot, in_or_app; tauto.
Qed.

Lemma without_incl (p : Player) (t : list Player) (x : Player) :
  In x (without p t) -> In x t.
Proof. unfold without. rewrite filter_In. tauto. Qed.

Lemma without_length (p : Player) (t : list Player) :
  (List.length (without p t) <= List.length t)%nat.
Proof. apply filter_length_le. Qed.

Lemma without_cost (p : Player) (t : list Player) :
  cost (without p t) <= cost t.
Proof.
  induction t as [|q t IH]; [apply Z.le_refl|].
  change (without p (q :: t))
    with (if negb (Player.id q =? Player.id p)%string
          then q :: without p t else without p t).
  destruct (negb (Player.id q =? Player.id p)%string).
  - rewrite !cost_cons. lia.
  - rewrite cost_cons. pose proof (creditCost_range (Player.role q)). lia.
Qed.

Lemma without_NoDup (p : Player) (t : list Player) :
  NoDup (map Player.id t) -> NoDup (map Player.id (without p t)).
Proof.
  induction t as [|q t IH]; simpl; intros ND; [constructor|].
  inversion ND as [|? ? Hq ND']; subst.
  destruct (negb (Player.id q =? Player.id p)%string); simpl; [|now apply IH].
  constructor; [|now apply IH].
  intros H. apply Hq. apply in_map_iff in H as (x & Hx & Hin).
  apply in_map_iff. exists x. split; [exact Hx|]. now apply without_incl in Hin.
Qed.

Lemma without_not_selected (p : Player) (t : list Player) :
  selected (without p t) p = false.
Proof.
  apply selected_false. intros H.
  apply in_map_iff in H as (x & Hx & Hin).
  unfold without in Hin. apply filter_In in Hin as [_ Hne].
  rewrite Hx, String.eqb_refl in Hne. discriminate.
Qed.

Lemma NoDup_app_snoc (l : list string) (a : string) :
  NoDup l -> ~ In a l -> NoDup (l ++ [a]).
Proof.
  induction l as [|b l IH]; simpl; intros ND Hn.
  - constructor; [intros []|constructor].
  - inversion ND as [|? ? Hb ND']; subst.
    constructor; [|apply IH; tauto].
    rewrite in_app_iff. simpl. intros [H|[H|[]]]; [tauto|].
    apply Hn. left. now symmetry.
Qed.

(** ** The three cases of a toggle *)

Lemma toggle_selected (t : list Player) (p : Player) :
  selected t p = true -> toggle t p = without p t.
Proof. unfold toggle, onClick. now intros ->. Qed.

Lemma toggle_add (t : list Player) (p : Player) :
  selected t p = false -> canAdd t p = true -> toggle t p = t ++ [p].
Proof. unfold toggle, onClick. now intros -> ->. Qed.

Lemma toggle_refused (t : list Player) (p : Player) :
  selected t p = false -> canAdd t p = false -> toggle t p = t.
Proof. unfold toggle, onClick. now intros -> ->. Qed.

Lemma canAdd_spec (team : list Player) (p : Player) :
  canAdd team p = true <->
  (List.length team < 11)%nat
  /\ ~ In (Player.id p) (map Player.id team)
  /\ cost team + creditCost (Player.role p) <= 100.
Proof.
  unfold canAdd, maxPlayers, budgetCap.
  rewrite !andb_true_iff, Nat.ltb_lt, Z.leb_le, negb_true_iff, budgetUsed_cost.
  fold (selected team p). rewrite selected_false. tauto.
Qed.

Lemma toggle_inv (t : list Player) (p : Player) :
  roster_inv t -> roster_inv (toggle t p).
Proof.
  intros (Hc & Hl & Hd).
  destruct (selected t p) eqn:Hs.
  - rewrite (toggle_selected _ _ Hs). repeat split.
    + pose proof (without_cost p t). lia.
    + pose proof (without_length p t). lia.
    + now apply without_NoDup.
  - destruct (canAdd t p) eqn:Ha.
    + rewrite (toggle_add _ _ Hs Ha).
      apply canAdd_spec in Ha as (Hlt & Hnin & Hb).
      repeat split.
      * rewrite cost_app, cost_cons. unfold cost at 2. simpl. lia.
      * rewrite length_app. simpl. lia.
      * rewrite map_app. simpl.
        apply NoDup_app_snoc; assumption.
    + rewrite (toggle_refused _ _ Hs Ha). repeat split; assumption.
Qed.

(** ** Claims about the roster builder *)

(** Three Batsmen and a Bowler cost 29 credits; an All-rounder may join. *)
Example canAdd_fifth_player :
  let roster := [seedPlayer 3; seedPlayer 6; seedPlayer 9; seedPlayer 1] in
  budgetUsed roster = 29 /\ canAdd roster (seedPlayer 2) = true.
Proof. split; reflexivity. Qed.

(** A full roster takes no twelfth player, whatever the cost. *)
Lemma canAdd_full (team : list Player) (p : Player) :
  List.length team = 11%nat -> canAdd team p = false.
Proof.
  intros H. unfold canAdd, maxPlayers. rewrite H. reflexivity.
Qed.

(** C1. [canAdd team p] answers [true] exactly when the roster has fewer
    than 11 players, no player of the roster carries the candidate's
    identifier, and the roster's credit sum plus the candidate's credit
    cost is at most 100. *)
Theorem canAdd_iff (team : list Player) (p : Player) :
  canAdd team p = true <->
  (List.length team < 11)%nat
  /\ ~ In (Player.id p) (map Player.id team)
  /\ fold_right Z.add 0 (map (fun x => creditCost (Player.role x)) team)
     + creditCost (Player.role p) <= 100.
Proof. exact (canAdd_spec team p). Qed.

(** C2. Every roster reachable from the empty roster by toggles costs at
    most 100 credits, has at most 11 players, and its player identifiers
    are pairwise distinct. *)
Theorem reachable_roster_inv (t : list Player) :
  reachable t ->
  cost t <= 100 /\ (List.length t <= 11)%nat /\ NoDup (map Player.id t).
Proof.
  induction 1 as [|t p _ IH].
  - repeat split; [unfold cost; simpl; lia | simpl; lia | constructor].
  - exact (toggle_inv t p IH).
Qed.

Lemma reachable_roster_inv_witness :
  reachable [player1; player2]
  /\ cost [player1; player2] <= 100
  /\ (List.length [player1; player2] <= 11)%nat
  /\ NoDup (map Player.id [player1; player2]).
Proof.
  assert (R : reachable [player1; player2]).
  { change (reachable (toggle (toggle [] player1) player2)).
    apply reach_toggle, reach_toggle, reach_init. }
  split; [exact R | exact (reachable_roster_inv _ R)].
Defined.

(** C3, as the spec states it, fails on order: toggling the first of two
    selected players twice puts that player last. *)
Lemma toggle_twice_reorders :
  reachable [player1; player2]
  /\ In player1 [player1; player2]
  /\ toggle (toggle [player1; player2] player1) player1 = [player2; player1]
  /\ toggle (toggle [player1; player2] player1) player1 <> [player1; player2].
Proof.
  split; [|split; [|split]].
  - change (reachable (toggle (toggle [] player1) player2)).
    apply reach_toggle, reach_toggle, reach_init.
  - now left.
  - reflexivity.
  - discriminate.
Qed.

(** C3, amended. For a roster [R] that satisfies the roster invariants and
    contains [P], [toggle R P] removes exactly [P] and keeps the order of
    the others, lowers the credit sum by exactly [creditCost P] (which is
    positive), and a second toggle of [P] appends [P] at the end: the
    same players as [R], with [P] moved last. *)
Theorem toggle_selected_twice (R : list Player) (P : Player) :
  roster_inv R -> In P R ->
  exists l1 l2,
    R = l1 ++ P :: l2
    /\ toggle R P = l1 ++ l2
    /\ cost (toggle R P) = cost R - creditCost (Player.role P)
    /\ cost (toggle R P) < cost R
    /\ toggle (toggle R P) P = l1 ++ l2 ++ [P]
    /\ Permutation R (toggle (toggle R P) P).
Proof.
  intros (Hc & Hl & Hd) Hin.
  destruct (in_split _ _ Hin) as (l1 & l2 & ->).
  exists l1, l2.
  assert (T1 : toggle (l1 ++ P :: l2) P = l1 ++ l2).
  { rewrite toggle_selected by now apply In_selected.
    now apply without_split. }
  assert (C1 : cost (l1 ++ l2)
               = cost (l1 ++ P :: l2) - creditCost (Player.role P)).
  { rewrite !cost_app, cost_cons. lia. }
  assert (T2 : toggle (l1 ++ l2) P = (l1 ++ l2) ++ [P]).
  { apply toggle_add.
    - rewrite <- (without_split P l1 l2 Hd). apply without_not_selected.
    - apply canAdd_spec. repeat split.
      + rewrite length_app in *. simpl in Hl. lia.
      + rewrite map_app in *. simpl in Hd. now apply NoDup_remove_2 in Hd.
      + lia. }
  rewrite T1, T2.
  pose proof (creditCost_range (Player.role P)).
  repeat split; try lia.
  - now rewrite app_assoc.
  - rewrite <- app_assoc. apply Permutation_app_head.
    change (P :: l2) with ([P] ++ l2). apply Permutation_app_comm.
Qed.

Lemma toggle_selected_twice_witness :
  exists l1 l2,
    [player1; player2] = l1 ++ player1 :: l2
    /\ toggle [player1; player2] player1 = l1 ++ l2
    /\ cost (toggle [player1; player2] player1)
       = cost [player1; player2] - creditCost (Player.role player1)
    /\ cost (toggle [player1; player2] player1) < cost [player1; player2]
    /\ toggle (toggle [player1; player2] player1) player1 = l1 ++ l2 ++ [player1]
    /\ Permutation [player1; player2]
                   (toggle (toggle [player1; player2] player1) player1).
Proof.
  apply (toggle_selected_twice [player1; player2] player1).
  - repeat split.
    + vm_compute. discriminate.
    + simpl. lia.
    + repeat constructor; simpl; intuition discriminate.
  - simpl. now left.
Defined.

(** C4, as the spec states it, fails: a role outside the closed set is
    charged 9 credits where the spec's lookup fails. *)
Lemma creditCost_unknown_role :
  creditCost_spec "Wicketkeeper" = None /\ creditCost "Wicketkeeper" = 9.
Proof. split; reflexivity. Qed.

(** C4, amended. [creditCost] charges 7 for a Batsman, 8 for a Bowler and
    9 for an All-rounder; it never fails: on the closed role set it agrees
    with the spec's lookup, and every other role is charged 9. *)
Theorem creditCost_total (role : string) :
  (creditCost "Batsman" = 7 /\ creditCost "Bowler" = 8
   /\ creditCost "All-rounder" = 9)
  /\ creditCost role
     = match creditCost_spec role with Some c => c | None => 9 end.
Proof.
  split; [repeat split|].
  unfold creditCost, creditCost_spec.
  destruct (role =? "Batsman")%string; [reflexivity|].
  destruct (role =? "Bowler")%string; [reflexivity|].
  destruct (role =? "All-rounder")%string; reflexivity.
Qed.

(** ** The offered players *)

Lemma toggle_members (t : list Player) (p x : Player) :
  In x (toggle t p) -> In x t \/ x = p.
Proof.
  unfold toggle, onClick.
  destruct (selected t p).
  - intros H. left. now apply without_incl in H.
  - destruct (canAdd t p); [|now left].
    rewrite in_app_iff. simpl. intuition.
Qed.

Lemma ui_reachable_reachable (players t : list Player) :
  ui_reachable players t -> reachable t.
Proof. induction 1; [apply reach_init | now apply reach_toggle]. Qed.

Lemma beyond_firstn_absent {A : Type} (l : list A) (k i : nat) (a : A) :
  NoDup l -> (k <= i)%nat -> nth_error l i = Some a -> ~ In a (firstn k l).
Proof.
  intros ND Hki Hi Hin.
  apply In_nth_error in Hin as [j Hj].
  assert (Hjk : (j < k)%nat).
  { assert (Hlen : (j < List.length (firstn k l))%nat)
      by (apply nth_error_Some; congruence).
    rewrite length_firstn in Hlen. lia. }
  rewrite nth_error_firstn in Hj.
  destruct (j <? k)%nat eqn:E; [|apply Nat.ltb_ge in E; lia].
  assert (Hjl : (j < List.length l)%nat) by (apply nth_error_Some; congruence).
  pose proof (proj1 (NoDup_nth_error l) ND j i Hjl) as Heq.
  rewrite Hj, Hi in Heq. specialize (Heq eq_refl). lia.
Qed.

(** C10. Whatever the player list, only its first 20 players get a button:
    every member of a roster built through the buttons is one of the first
    20 players, at most 20 players are offered, and (the listed players
    being distinct) a player at position 20 or later never enters a
    roster. *)
Theorem only_first_twenty_offered (players t : list Player) :
  ui_reachable players t ->
  (forall x, In x t -> In x (firstn 20 players))
  /\ (List.length (offered players) <= 20)%nat
  /\ (NoDup players ->
      forall i p, (20 <= i)%nat -> nth_error players i = Some p -> ~ In p t).
Proof.
  intros H.
  assert (Hsub : forall x, In x t -> In x (firstn 20 players)).
  { induction H as [|t p _ IH Hp]; [intros x []|].
    intros x Hx. apply toggle_members in Hx as [Hx| ->]; [now apply IH|].
    exact Hp. }
  split; [exact Hsub|split].
  - unfold offered. rewrite length_firstn. lia.
  - intros ND i p Hi Hnth Hin.
    exact (beyond_firstn_absent players 20 i p ND Hi Hnth (Hsub p Hin)).
Qed.

Lemma only_first_twenty_offered_witness :
  ui_reachable seedPlayers (toggle [] player1)
  /\ (forall x, In x (toggle [] player1) -> In x (firstn 20 seedPlayers))
  /\ (List.length (offered seedPlayers) <= 20)%nat
  /\ (NoDup seedPlayers ->
      forall i p, (20 <= i)%nat -> nth_error seedPlayers i = Some p ->
                  ~ In p (toggle [] player1)).
Proof.
  assert (U : ui_reachable seedPlayers (toggle [] player1)).
  { apply ui_click; [apply ui_init|]. vm_compute. now left. }
  split; [exact U | exact (only_first_twenty_offered seedPlayers _ U)].
Defined.

(** ** Stable sorting by a key *)

Section SortFacts.
Context {A : Type} (cmp : A -> A -> Z) (key : A -> Z).
Hypothesis cmp_key : forall x y, cmp x y <= 0 <-> key y <= key x.

Let desc (a b : A) : Prop := key b <= key a.
Let has (k : Z) (a : A) : bool := key a =? k.

Lemma insert_perm (x : A) (l : list A) :
  Permutation (x :: l) (insert cmp x l).
Proof.
  induction l as [|y l IH]; simpl; [reflexivity|].
  destruct (cmp x y <=? 0); [reflexivity|].
  rewrite perm_swap. now apply perm_skip.
Qed.

Lemma sort_perm (l : list A) : Permutation l (sort cmp l).
Proof.
  induction l as [|x l IH]; simpl; [reflexivity|].
  rewrite <- insert_perm. now apply perm_skip.
Qed.

Lemma insert_sorted (x : A) (l : list A) :
  StronglySorted desc l -> StronglySorted desc (insert cmp x l).
Proof.
  induction 1 as [|y l Hs IH Hy]; simpl.
  - constructor; constructor.
  - destruct (cmp x y <=? 0) eqn:E.
    + apply Z.leb_le, cmp_key in E.
      constructor; [now constructor|].
      constructor; [exact E|].
      eapply Forall_impl; [|exact Hy].
      unfold desc. intros; lia.
    + apply Z.leb_gt in E.
      assert (Hxy : key x <= key y).
      { destruct (Z.le_gt_cases (key y) (key x)) as [H|H]; [|lia].
        apply cmp_key in H. lia. }
      constructor; [exact IH|].
      rewrite <- insert_perm. constructor; assumption.
Qed.

Lemma sort_sorted (l : list A) : StronglySorted desc (sort cmp l).
Proof.
  induction l as [|x l IH]; simpl; [constructor|now apply insert_sorted].
Qed.

Lemma insert_filter (k : Z) (x : A) (l : list A) :
  filter (has k) (insert cmp x l) = filter (has k) (x :: l).
Proof.
  induction l as [|y l IH]; [reflexivity|].
  cbn [insert].
  destruct (cmp x y <=? 0) eqn:E; [reflexivity|].
  apply Z.leb_gt in E.
  assert (Hne : key x <> key y).
  { intros Heq. assert (H : key y <= key x) by lia.
    apply cmp_key in H. lia. }
  cbn [filter] in *. rewrite IH. unfold has.
  destruct (key y =? k) eqn:Ey, (key x =? k) eqn:Ex; try reflexivity.
  apply Z.eqb_eq in Ey, Ex. lia.
Qed.

Lemma sort_filter (k : Z) (l : list A) :
  filter (has k) (sort cmp l) = filter (has k) l.
Proof.
  induction l as [|x l IH]; [reflexivity|].
  cbn [sort fold_right]. fold (sort cmp l).
  rewrite insert_filter. cbn [filter]. now rewrite IH.
Qed.

Lemma sort_stable_sort_of (l : list A) : stable_sort_of key l (sort cmp l).
Proof.
  split; [apply sort_perm|split; [apply sort_sorted|]].
  intros k. apply (sort_filter k).
Qed.

Lemma sorted_sort_id (l : list A) : StronglySorted desc l -> sort cmp l = l.
Proof.
  induction 1 as [|x l Hs IH Hx]; [reflexivity|].
  cbn [sort fold_right]. fold (sort cmp l). rewrite IH.
  destruct l as [|y l]; [reflexivity|].
  cbn [insert].
  inversion Hx as [|? ? Hxy _]; subst.
  apply cmp_key, Z.leb_le in Hxy. now rewrite Hxy.
Qed.

(** Two descending lists with the same elements of every key, in the
    same order within each key, are equal. *)
Lemma sorted_filters_eq (l1 l2 : list A) :
  StronglySorted desc l1 -> StronglySorted desc l2 ->
  (forall k, filter (has k) l1 = filter (has k) l2) ->
  l1 = l2.
Proof.
  intros S1. revert l2.
  induction S1 as [|a l1 S1 IH Ha]; intros l2 S2 F.
  - destruct l2 as [|b l2]; [reflexivity|].
    specialize (F (key b)). cbn [filter] in F. unfold has in F.
    rewrite Z.eqb_refl in F. discriminate.
  - destruct S2 as [|b l2 S2 Hb].
    { specialize (F (key a)). cbn [filter] in F. unfold has in F.
      rewrite Z.eqb_refl in F. discriminate. }
    assert (Hin : forall (x : A) (l l' : list A),
               filter (has (key x)) (x :: l) = filter (has (key x)) l' ->
               In x l').
    { intros x l l' E. cbn [filter] in E. unfold has in E at 1.
      rewrite Z.eqb_refl in E.
      assert (Hx : In x (filter (has (key x)) l')) by (rewrite <- E; now left).
      now apply filter_In in Hx. }
    assert (Hab : key a = key b).
    { pose proof (Hin a l1 (b :: l2) (F (key a))) as H1.
      pose proof (Hin b l2 (a :: l1) (eq_sym (F (key b)))) as H2.
      rewrite Forall_forall in Ha, Hb. unfold desc in Ha, Hb.
      destruct H1 as [H1|H1], H2 as [H2|H2]; subst; try reflexivity.
      specialize (Hb _ H1). specialize (Ha _ H2). lia. }
    pose proof (F (key a)) as Fa. cbn [filter] in Fa.
    replace (has (key a) a) with true in Fa
      by (unfold has; now rewrite Z.eqb_refl).
    replace (has (key a) b) with true in Fa
      by (unfold has; rewrite Hab; now rewrite Z.eqb_refl).
    injection Fa as -> _.
    f_equal. apply IH; [exact S2|].
    intros k. specialize (F k). cbn [filter] in F.
    destruct (has k b); [now injection F|exact F].
Qed.

Lemma stable_sort_unique (l o1 o2 : list A) :
  stable_sort_of key l o1 -> stable_sort_of key l o2 -> o1 = o2.
Proof.
  intros (_ & S1 & F1) (_ & S2 & F2).
  apply sorted_filters_eq; [exact S1|exact S2|].
  intros k. unfold has. now rewrite F1, F2.
Qed.

Lemma sorted_app_le (l1 l2 : list A) :
  StronglySorted desc (l1 ++ l2) ->
  forall a b, In a l1 -> In b l2 -> key b <= key a.
Proof.
  induction l1 as [|x l1 IH]; simpl; intros S a b Ha Hb; [contradiction|].
  inversion S as [|? ? S' Hx]; subst.
  destruct Ha as [->|Ha]; [|now apply (IH S' a b)].
  rewrite Forall_forall in Hx. apply Hx, in_or_app. now right.
Qed.
End SortFacts.

Lemma byPointsDesc_key (x y : string * option Score.t) :
  byPointsDesc x y <= 0 <-> entryPoints y <= entryPoints x.
Proof. unfold byPointsDesc. lia. Qed.

(** ** Claims about the leaderboard *)

Lemma rows_from_firstn (k i : nat) (l : Entries) :
  rows_from i (firstn k l) = firstn k (rows_from i l).
Proof.
  revert i l. induction k as [|k IH]; intros i l; [reflexivity|].
  destruct l as [|[u s] l]; [reflexivity|].
  cbn [firstn rows_from]. now rewrite IH.
Qed.

Lemma rows_from_pts (i : nat) (l : Entries) :
  map pts (rows_from i l) = map entryPoints l.
Proof.
  revert i. induction l as [|[u s] l IH]; intros i; [reflexivity|].
  cbn [rows_from map]. now rewrite IH.
Qed.

Lemma rows_from_rank (i : nat) (l : Entries) :
  map rank (rows_from i l) = seq (i + 1) (List.length l).
Proof.
  revert i. induction l as [|[u s] l IH]; intros i; [reflexivity|].
  cbn [rows_from map List.length seq]. rewrite IH.
  now replace (S i + 1)%nat with (S (i + 1)) by lia.
Qed.

Lemma rows_from_In (r : Row) (i : nat) (l : Entries) :
  In r (rows_from i l) ->
  exists e, In e l /\ uid r = fst e /\ pts r = entryPoints e.
Proof.
  revert i. induction l as [|[k s] l IH]; intros i; [intros []|].
  cbn [rows_from In]. intros [<-|H].
  - exists (k, s). repeat split. now left.
  - destruct (IH _ H) as (e & He & Hu & Hp). exists e. repeat split; auto.
Qed.

Lemma topK_incl (scores : Entries) (e : string * option Score.t) :
  In e (topK scores) -> In e scores.
Proof.
  unfold topK, ranking. intros H.
  apply (Permutation_in e (Permutation_sym (sort_perm byPointsDesc scores))).
  rewrite <- (firstn_skipn 20 (sort byPointsDesc scores)).
  apply in_or_app. left. exact H.
Qed.

Lemma pointsOf_present (n : Z) : pointsOf (Some (Score.mk (Some n))) = n.
Proof.
  unfold pointsOf. cbn [Score.points].
  destruct (Z.eqb_spec n 0) as [->|_]; reflexivity.
Qed.

Lemma sorted_app_left {A : Type} (R : A -> A -> Prop) (l1 l2 : list A) :
  StronglySorted R (l1 ++ l2) -> StronglySorted R l1.
Proof.
  induction l1 as [|a l1 IH]; [constructor|].
  cbn [app]. intros S. inversion S as [|? ? S' Ha]; subst.
  constructor; [now apply IH|].
  apply Forall_app in Ha. tauto.
Qed.

Lemma rows_from_sorted (i : nat) (l : Entries) :
  StronglySorted (fun a b => entryPoints b <= entryPoints a) l ->
  StronglySorted (fun r1 r2 => pts r2 <= pts r1) (rows_from i l).
Proof.
  intros S. revert i.
  induction S as [|[u s] l S IH Ha]; intros i; [constructor|].
  cbn [rows_from]. constructor; [apply IH|].
  apply Forall_forall. intros r Hr.
  apply rows_from_In in Hr as (e & He & _ & Hp).
  rewrite Forall_forall in Ha. specialize (Ha e He).
  cbn [pts]. rewrite Hp. exact Ha.
Qed.

Example ranking_sample :
  leaderboard sampleScores
  = [mkRow 1 "u2" 58; mkRow 2 "u3" 58; mkRow 3 "u1" 42;
     mkRow 4 "u4" 0; mkRow 5 "u5" 0].
Proof. reflexivity. Qed.

(** C8. The leaderboard lists the entries by points descending, where an
    entry counts for the number in its [points] field and an absent entry
    or an absent [points] counts for 0; the 20 lines shown are the first 20
    lines of the fully sorted order, numbered from 1, each showing the
    points of an entry of the input, and no entry left out has more points
    than an entry shown. *)
Theorem leaderboard_top20 (scores : Entries) :
  Permutation scores (ranking scores)
  /\ StronglySorted (fun a b => entryPoints b <= entryPoints a) (ranking scores)
  /\ leaderboard scores = firstn 20 (rows_from 0 (ranking scores))
  /\ firstn 20 (topK scores) = firstn 20 (ranking scores)
  /\ map pts (leaderboard scores) = map entryPoints (firstn 20 (ranking scores))
  /\ map rank (leaderboard scores) = seq 1 (List.length (leaderboard scores))
  /\ (forall a b, In a (topK scores) -> In b (skipn 20 (ranking scores)) ->
                  entryPoints b <= entryPoints a)
  /\ pointsOf None = 0
  /\ pointsOf (Some (Score.mk None)) = 0
  /\ (forall n, pointsOf (Some (Score.mk (Some n))) = n)
  /\ (forall u n, entryPoints (u, Some (Score.mk (Some n))) = n)
  /\ StronglySorted (fun r1 r2 => pts r2 <= pts r1) (leaderboard scores)
  /\ (forall r, In r (leaderboard scores) ->
      exists s, In (uid r, s) scores
                /\ pts r = match s with
                           | Some (Score.mk (Some n)) => n
                           | _ => 0
                           end).
Proof.
  pose proof (sort_sorted byPointsDesc entryPoints byPointsDesc_key scores) as S.
  fold (ranking scores) in S.
  split; [apply sort_perm|].
  split; [exact S|].
  split; [unfold leaderboard, topK; apply rows_from_firstn|].
  split; [unfold topK; now rewrite firstn_firstn|].
  split; [unfold leaderboard, topK; apply rows_from_pts|].
  split.
  { unfold leaderboard. rewrite rows_from_rank.
    f_equal. rewrite <- (length_map rank), rows_from_rank. now rewrite length_seq. }
  split.
  { intros a b Ha Hb. unfold topK in Ha.
    rewrite <- (firstn_skipn 20 (ranking scores)) in S.
    exact (sorted_app_le entryPoints _ _ S a b Ha Hb). }
  split; [reflexivity|].
  split; [reflexivity|].
  split; [exact pointsOf_present|].
  split; [intros u n; apply pointsOf_present|].
  split.
  { unfold leaderboard, topK. apply rows_from_sorted.
    rewrite <- (firstn_skipn 20 (ranking scores)) in S.
    exact (sorted_app_left _ _ _ S). }
  intros r Hr. unfold leaderboard in Hr.
  apply rows_from_In in Hr as ([k s] & He & Hu & Hp).
  apply topK_incl in He. cbn [fst] in Hu. subst k.
  exists s. split; [exact He|].
  rewrite Hp. unfold entryPoints. cbn [snd].
  destruct s as [[[n|]]|]; try reflexivity. apply pointsOf_present.
Qed.

(** C9. The ranking is a function of the scores object alone, and it is
    the stable one: entries of equal points keep the order they have in
    the input; ranking an already ranked list changes nothing; and every
    stable descending sort of the input returns this very order. *)
Theorem ranking_stable (scores : Entries) :
  (forall k, filter (fun e => entryPoints e =? k) (ranking scores)
             = filter (fun e => entryPoints e =? k) scores)
  /\ ranking (ranking scores) = ranking scores
  /\ (forall out, stable_sort_of entryPoints scores out -> out = ranking scores).
Proof.
  split; [|split].
  - intros k. exact (sort_filter byPointsDesc entryPoints byPointsDesc_key k scores).
  - apply (sorted_sort_id byPointsDesc entryPoints byPointsDesc_key).
    apply (sort_sorted byPointsDesc entryPoints byPointsDesc_key).
  - intros out H.
    apply (stable_sort_unique entryPoints scores out (ranking scores) H).
    apply (sort_stable_sort_of byPointsDesc entryPoints byPointsDesc_key).
Qed.

(** ** Claims about the contest join *)

Ltac unfold_join :=
  unfold try_finally, try_catch, bind, setDoc, setJoining, setJoined,
    set_view, alert, console_error, ret, maxPlayers;
  cbn.

(** The join on a view that passes both guards: the store takes the
    writes up to the first rejection. *)
Lemma join_run (env : Env) (w : World) (refs : DbRefs) (u : User)
  (c : Contest.t) :
  View.dbRefs (view w) = Some refs ->
  View.user (view w) = Some u ->
  View.contest (view w) = Some c ->
  List.length (View.team (view w)) = 11%nat ->
  let w' := snd (join env w) in
  fst (join env w) = Done tt
  /\ store w' = store w
                ++ firstn (accepted env) (joinWrites env refs u c (View.team (view w)))
  /\ alerts w' = alerts w ++ (if (accepted env =? 3)%nat then []
                               else ["Failed to join contest."])
  /\ View.joined (view w') = (if (accepted env =? 3)%nat then true
                              else View.joined (view w))
  /\ View.joining (view w') = false
  /\ View.team (view w') = View.team (view w).
Proof.
  intros Hr Hu Hc Hl.
  unfold join, joinContest, accepted. rewrite Hr, Hu, Hc, Hl.
  unfold_join.
  destruct (setDoc_ok env 0) eqn:E0; cbn;
    [destruct (setDoc_ok env 1) eqn:E1; cbn;
     [destruct (setDoc_ok env 2) eqn:E2; cbn|]|];
    rewrite <- ?app_assoc, ?app_nil_r; repeat split; reflexivity.
Qed.

(** The join on a view that fails a guard: nothing is written and nothing
    is thrown; only the size guard speaks. *)
Lemma join_guarded (env : Env) (w : World) :
  View.dbRefs (view w) = None \/ View.user (view w) = None
  \/ View.contest (view w) = None
  \/ List.length (View.team (view w)) <> 11%nat ->
  let w' := snd (join env w) in
  fst (join env w) = Done tt
  /\ store w' = store w
  /\ view w' = view w
  /\ alerts w' = alerts w
                 ++ match View.dbRefs (view w), View.user (view w),
                          View.contest (view w) with
                    | Some _, Some _, Some _ =>
                        ["Select exactly 11 players to join."]
                    | _, _, _ => []
                    end.
Proof.
  intros H. unfold join, joinContest.
  destruct (View.dbRefs (view w)) as [refs|],
           (View.user (view w)) as [u|],
           (View.contest (view w)) as [c|];
    try (cbn; rewrite app_nil_r; repeat split; reflexivity).
  destruct H as [H|[H|[H|H]]]; try discriminate.
  apply Nat.eqb_neq in H. unfold maxPlayers. rewrite H.
  cbn. repeat split.
Qed.

Lemma written_app (w w' : World) (ws : list Write) :
  store w' = store w ++ ws -> written w w' = ws.
Proof.
  unfold written. intros ->.
  induction (store w) as [|x l IH]; [reflexivity|exact IH].
Qed.

Lemma joinWrites_paths_distinct (env : Env) (refs : DbRefs) (u : User)
  (c : Contest.t) (team : list Player) :
  NoDup (map w_path (joinWrites env refs u c team)).
Proof.
  cbn [joinWrites map w_path].
  set (J := jplFantasy env refs u).
  assert (N : forall (a b : string) (l : list string), J <> J ++ a :: b :: l).
  { intros a b l H. rewrite <- (app_nil_r J) in H at 1.
    apply app_inv_head in H. discriminate. }
  repeat constructor; cbn [In].
  - intros [H|[H|[]]]; exact (N _ _ _ (eq_sym H)).
  - intros [H|[]]. apply app_inv_head in H. discriminate.
  - intros [].
Qed.

(** C5, as the spec states it, fails: a join on a closed contest, and one
    on a contest document that does not exist, both pass the guards and
    write all three records. *)
Lemma join_ignores_contest_status :
  ~ known_open (Some closedContest)
  /\ ~ known_open None
  /\ fst (join envOk (readyWorld (Some closedContest))) = Done tt
  /\ List.length (store (snd (join envOk (readyWorld (Some closedContest)))))
     = 3%nat
  /\ fst (join envOk (readyWorld None)) = Done tt
  /\ List.length (store (snd (join envOk (readyWorld None)))) = 3%nat.
Proof.
  repeat split; try reflexivity.
  - intros (cd & H & Hs). injection H as <-. discriminate.
  - intros (cd & H & _). discriminate.
Qed.

(** C5, amended. Before any write the join checks that the store
    references, the user and the contest object are present and that the
    roster has exactly 11 players. If one of these fails it returns
    without writing and without changing the view; it raises no error,
    and alerts only for the roster size. *)
Theorem join_checks_before_writing (env : Env) (w : World) :
  View.dbRefs (view w) = None \/ View.user (view w) = None
  \/ View.contest (view w) = None
  \/ List.length (View.team (view w)) <> 11%nat ->
  fst (join env w) = Done tt
  /\ written w (snd (join env w)) = []
  /\ store (snd (join env w)) = store w
  /\ view (snd (join env w)) = view w
  /\ alerts (snd (join env w))
     = alerts w
       ++ match View.dbRefs (view w), View.user (view w),
                View.contest (view w) with
          | Some _, Some _, Some _ => ["Select exactly 11 players to join."]
          | _, _, _ => []
          end.
Proof.
  intros H. destruct (join_guarded env w H) as (Hd & Hs & Hv & Ha).
  repeat split; try assumption.
  apply written_app. now rewrite app_nil_r.
Qed.

Lemma join_checks_before_writing_witness :
  List.length (View.team (view shortWorld)) <> 11%nat
  /\ fst (join envOk shortWorld) = Done tt
  /\ written shortWorld (snd (join envOk shortWorld)) = [].
Proof.
  assert (H : List.length (View.team (view shortWorld)) <> 11%nat)
    by (vm_compute; discriminate).
  split; [exact H|].
  pose proof (join_checks_before_writing envOk shortWorld
                (or_intror (or_intror (or_intror H)))) as (Hd & Hw & _).
  split; [exact Hd | exact Hw].
Defined.

(** C6, as the spec states it, fails on atomicity: when the store rejects
    the second write, the first one stays; the store then holds the
    profile marker alone, without team or membership record. *)
Lemma join_leaves_partial_writes :
  written (readyWorld (Some openContest))
          (snd (join envFailSecond (readyWorld (Some openContest))))
  = [mkWrite (jplFantasy envFailSecond (useJplRefs "app") (mkUser "uid_1"))
             markerDoc]
  /\ View.joined (view (snd (join envFailSecond (readyWorld (Some openContest)))))
     = false
  /\ alerts (snd (join envFailSecond (readyWorld (Some openContest))))
     = ["Failed to join contest."].
Proof. repeat split; reflexivity. Qed.

(** C6, amended. A join that passes the guards issues three writes one
    after the other under the user's path: the profile marker, the team
    record (player identifiers in roster order, budget used, roster size
    and cap), and the membership record (contest, match, team). The writes
    are separate: the store keeps those accepted before the first
    rejection. When all three are accepted the join sets [joined];
    otherwise it alerts the failure and leaves [joined] as it was. *)
Theorem join_writes_in_sequence (env : Env) (w : World) (refs : DbRefs)
  (u : User) (c : Contest.t) :
  View.dbRefs (view w) = Some refs ->
  View.user (view w) = Some u ->
  View.contest (view w) = Some c ->
  List.length (View.team (view w)) = 11%nat ->
  let ws := joinWrites env refs u c (View.team (view w)) in
  let w' := snd (join env w) in
  written w w' = firstn (accepted env) ws
  /\ (accepted env = 3%nat ->
      written w w' = ws /\ View.joined (view w') = true
      /\ alerts w' = alerts w)
  /\ ((accepted env < 3)%nat ->
      View.joined (view w') = View.joined (view w)
      /\ alerts w' = alerts w ++ ["Failed to join contest."])
  /\ View.joining (view w') = false
  /\ NoDup (map w_path ws)
  /\ (forall x, In x ws ->
      exists rest, w_path x = userFantasyBase refs u ++ rest)
  /\ map w_data ws
     = [markerDoc; teamDoc (View.team (view w)); membershipDoc c].
Proof.
  intros Hr Hu Hc Hl ws w'.
  destruct (join_run env w refs u c Hr Hu Hc Hl) as (_ & Hs & Ha & Hj & Hg & _).
  fold w' in Hs, Ha, Hj, Hg. fold ws in Hs.
  pose proof (written_app w w' _ Hs) as Hw.
  split; [exact Hw|].
  split; [|split; [|split; [exact Hg|split; [|split]]]].
  - intros E. rewrite E in *. cbn [Nat.eqb] in Ha, Hj.
    rewrite app_nil_r in Ha. repeat split; assumption.
  - intros E.
    assert (E3 : (accepted env =? 3)%nat = false) by (apply Nat.eqb_neq; lia).
    rewrite E3 in Ha, Hj. split; assumption.
  - apply joinWrites_paths_distinct.
  - intros x Hx. unfold ws, joinWrites, jplFantasy in Hx. cbn [In] in Hx.
    destruct Hx as [<-|[<-|[<-|[]]]]; cbn [w_path];
      rewrite <- ?app_assoc; eexists; reflexivity.
  - reflexivity.
Qed.

Lemma join_writes_in_sequence_witness :
  written (readyWorld (Some openContest))
          (snd (join envOk (readyWorld (Some openContest))))
  = firstn (accepted envOk)
      (joinWrites envOk (useJplRefs "app") (mkUser "uid_1")
                  (contest_of_snapshot "contest_1" (Some openContest)) seedXI).
Proof.
  exact (proj1 (join_writes_in_sequence envOk (readyWorld (Some openContest))
                  (useJplRefs "app") (mkUser "uid_1")
                  (contest_of_snapshot "contest_1" (Some openContest))
                  eq_refl eq_refl eq_refl eq_refl)).
Defined.

(** C7. A call of the join, whether it writes everything, fails midway or
    is stopped by a guard, leaves the roster of the view as it was (and
    with it the references, the user and the contest), so the Join button
    can be pressed again on the same roster. *)
Theorem join_keeps_roster (env : Env) (w : World) :
  View.team (view (snd (join env w))) = View.team (view w)
  /\ View.dbRefs (view (snd (join env w))) = View.dbRefs (view w)
  /\ View.user (view (snd (join env w))) = View.user (view w)
  /\ View.contest (view (snd (join env w))) = View.contest (view w)
  /\ fst (join env w) = Done tt.
Proof.
  unfold join, joinContest.
  destruct (View.dbRefs (view w)) as [refs|] eqn:Hr,
           (View.user (view w)) as [u|] eqn:Hu,
           (View.contest (view w)) as [c|] eqn:Hc;
    try (cbn; repeat split; assumption).
  destruct (List.length (View.team (view w)) =? maxPlayers)%nat;
    [|cbn; repeat split; assumption].
  unfold_join.
  destruct (setDoc_ok env 0); cbn;
    [destruct (setDoc_ok env 1); cbn; [destruct (setDoc_ok env 2); cbn|]|];
    repeat split; assumption.
Qed.

(** ** The budget cap and the buttons *)

Lemma cost_bounds (team : list Player) :
  7 * Z.of_nat (List.length team) <= cost team
  <= 9 * Z.of_nat (List.length team).
Proof.
  induction team as [|q team IH]; [unfold cost; simpl; lia|].
  rewrite cost_cons. cbn [List.length]. rewrite Nat2Z.inj_succ.
  pose proof (creditCost_range (Player.role q)). lia.
Qed.

Lemma canAdd_no_budget (team : list Player) (p : Player) :
  canAdd team p = (List.length team <? maxPlayers)%nat && negb (selected team p).
Proof.
  unfold canAdd, selected, maxPlayers, budgetCap.
  destruct (List.length team <? 11)%nat eqn:E; [|reflexivity].
  destruct (negb (truthy (findById team p))); [|reflexivity].
  cbn [andb]. apply Z.leb_le. apply Nat.ltb_lt in E.
  rewrite budgetUsed_cost.
  pose proof (cost_bounds team). pose proof (creditCost_range (Player.role p)).
  lia.
Qed.

(** X1. The budget cap never refuses a player: a roster of fewer than 11
    players costs at most 90 credits and no player costs more than 9, so
    [canAdd] is decided by the roster size and the identifier alone; and a
    roster of up to 11 players costs at most 99 credits. *)
Theorem budget_never_binds (team : list Player) (p : Player) :
  canAdd team p
  = (List.length team <? maxPlayers)%nat && negb (selected team p)
  /\ ((List.length team <= 11)%nat ->
      7 * Z.of_nat (List.length team) <= budgetUsed team <= 99).
Proof.
  split; [apply canAdd_no_budget|].
  intros H. rewrite budgetUsed_cost. pose proof (cost_bounds team). lia.
Qed.

(** X2. A button is drawn dimmed exactly when clicking it leaves the
    roster as it is. *)
Theorem dimmed_iff_click_does_nothing (team : list Player) (p : Player) :
  buttonStyle team p = Dimmed <-> toggle team p = team.
Proof.
  unfold buttonStyle.
  destruct (selected team p) eqn:Hs.
  - split; [discriminate|]. intros H.
    rewrite (toggle_selected _ _ Hs) in H.
    pose proof (without_not_selected p team) as Hn.
    rewrite H in Hn. congruence.
  - destruct (canAdd team p) eqn:Ha.
    + split; [discriminate|]. intros H.
      rewrite (toggle_add _ _ Hs Ha) in H.
      apply (f_equal (@List.length Player)) in H.
      rewrite length_app in H. simpl in H. lia.
    + split; [intros _|reflexivity]. now apply toggle_refused.
Qed.

Lemma clicks_append (ps t : list Player) :
  NoDup (map Player.id (t ++ ps)) ->
  (List.length (t ++ ps) <= 11)%nat ->
  clicks t ps = t ++ ps.
Proof.
  revert t. induction ps as [|p ps IH]; intros t ND Hl.
  - now rewrite app_nil_r.
  - unfold clicks. cbn [fold_left]. fold (clicks (toggle t p) ps).
    assert (Ht : toggle t p = t ++ [p]).
    { assert (Hn : ~ In (Player.id p) (map Player.id t)).
      { rewrite map_app in ND. cbn [map] in ND.
        apply NoDup_remove_2 in ND. intros H. apply ND, in_or_app. now left. }
      apply toggle_add; [now apply selected_false|].
      rewrite canAdd_no_budget.
      apply selected_false in Hn. rewrite Hn.
      rewrite length_app in Hl. cbn [List.length] in Hl.
      apply andb_true_iff. split; [apply Nat.ltb_lt; unfold maxPlayers; lia|].
      reflexivity. }
    rewrite Ht.
    replace (t ++ p :: ps) with ((t ++ [p]) ++ ps) in *
      by (rewrite <- app_assoc; reflexivity).
    now apply IH.
Qed.

Lemma clicks_reachable (ps t : list Player) :
  reachable t -> reachable (clicks t ps).
Proof.
  revert t. induction ps as [|p ps IH]; intros t R; [exact R|].
  unfold clicks. cbn [fold_left]. apply IH. now apply reach_toggle.
Qed.

(** X3. Clicking, from the empty roster, the buttons of at most 11 players
    with distinct identifiers selects exactly these players, in the order
    of the clicks; every such selection is therefore a reachable roster. *)
Theorem clicks_build_the_roster (ps : list Player) :
  NoDup (map Player.id ps) ->
  (List.length ps <= 11)%nat ->
  clicks [] ps = ps /\ reachable ps.
Proof.
  intros ND Hl.
  assert (E : clicks [] ps = ps) by (apply (clicks_append ps []); assumption).
  split; [exact E|].
  rewrite <- E. apply clicks_reachable, reach_init.
Qed.

Lemma clicks_build_the_roster_witness :
  clicks [] [player1; player2] = [player1; player2]
  /\ reachable [player1; player2].
Proof.
  apply clicks_build_the_roster.
  - repeat constructor; simpl; intuition discriminate.
  - simpl. lia.
Defined.
(** ** The Join button and repeated joins *)

(** What a call of the join leaves alone in the view. *)
Lemma join_frame (env : Env) (w : World) :
  View.team (view (snd (join env w))) = View.team (view w)
  /\ View.dbRefs (view (snd (join env w))) = View.dbRefs (view w)
  /\ View.user (view (snd (join env w))) = View.user (view w)
  /\ View.contest (view (snd (join env w))) = View.contest (view w).
Proof.
  unfold join, joinContest.
  destruct (View.dbRefs (view w)) as [refs|] eqn:Hr,
           (View.user (view w)) as [u|] eqn:Hu,
           (View.contest (view w)) as [c|] eqn:Hc;
    try (cbn; repeat split; assumption).
  destruct (List.length (View.team (view w)) =? maxPlayers)%nat;
    [|cbn; repeat split; assumption].
  unfold_join.
  destruct (setDoc_ok env 0); cbn;
    [destruct (setDoc_ok env 1); cbn; [destruct (setDoc_ok env 2); cbn|]|];
    repeat split; assumption.
Qed.

(** X4. Pressed while it is enabled, the Join button never answers with
    the roster-size alert: the call shows no alert at all or the failure
    alert of a rejected write. *)
Theorem enabled_join_skips_size_alert (env : Env) (w : World) :
  joinDisabled (view w) = false ->
  alerts (snd (join env w)) = alerts w
  \/ alerts (snd (join env w)) = alerts w ++ ["Failed to join contest."].
Proof.
  unfold joinDisabled. intros H.
  apply orb_false_iff in H as [_ H].
  apply negb_false_iff, Nat.eqb_eq in H. unfold maxPlayers in H.
  destruct (View.dbRefs (view w)) as [refs|] eqn:Hr;
    [destruct (View.user (view w)) as [u|] eqn:Hu;
     [destruct (View.contest (view w)) as [c|] eqn:Hc|]|].
  - destruct (join_run env w refs u c Hr Hu Hc H) as (_ & _ & Ha & _).
    rewrite Ha. destruct (accepted env =? 3)%nat;
      [left; apply app_nil_r | now right].
  - destruct (join_guarded env w) as (_ & _ & _ & Ha); [tauto|].
    left. rewrite Ha, Hr, Hu, Hc. apply app_nil_r.
  - destruct (join_guarded env w) as (_ & _ & _ & Ha); [tauto|].
    left. rewrite Ha, Hr, Hu. apply app_nil_r.
  - destruct (join_guarded env w) as (_ & _ & _ & Ha); [tauto|].
    left. rewrite Ha, Hr. apply app_nil_r.
Qed.

Lemma enabled_join_skips_size_alert_witness :
  alerts (snd (join envOk (readyWorld (Some openContest))))
  = alerts (readyWorld (Some openContest))
  \/ alerts (snd (join envOk (readyWorld (Some openContest))))
     = alerts (readyWorld (Some openContest)) ++ ["Failed to join contest."].
Proof.
  apply enabled_join_skips_size_alert. reflexivity.
Defined.

Lemma jplFantasy_inj (env1 env2 : Env) (refs : DbRefs) (u : User)
  (s1 s2 : list string) :
  jplFantasy env1 refs u ++ s1 = jplFantasy env2 refs u ++ s2 ->
  autoId env1 = autoId env2.
Proof.
  unfold jplFantasy. rewrite <- !app_assoc. intros H.
  apply app_inv_head in H. cbn [app] in H. now injection H.
Qed.

Lemma joinWrites_paths_under (env : Env) (refs : DbRefs) (u : User)
  (c : Contest.t) (team : list Player) (a : path) :
  In a (map w_path (joinWrites env refs u c team)) ->
  exists s, a = jplFantasy env refs u ++ s.
Proof.
  cbn [joinWrites map w_path In].
  intros [<-|[<-|[<-|[]]]]; [exists []; now rewrite app_nil_r| |];
    eexists; reflexivity.
Qed.

(** X5. Nothing stops a second join: two joins that both succeed, each in
    its own auto-identified container, leave six records at six different
    paths, two of them membership records of the same contest. *)
Theorem second_join_duplicates_membership (env1 env2 : Env) (w : World)
  (refs : DbRefs) (u : User) (c : Contest.t) :
  View.dbRefs (view w) = Some refs ->
  View.user (view w) = Some u ->
  View.contest (view w) = Some c ->
  List.length (View.team (view w)) = 11%nat ->
  accepted env1 = 3%nat -> accepted env2 = 3%nat ->
  autoId env1 <> autoId env2 ->
  let w1 := snd (join env1 w) in
  let w2 := snd (join env2 w1) in
  written w w2
  = joinWrites env1 refs u c (View.team (view w))
    ++ joinWrites env2 refs u c (View.team (view w))
  /\ NoDup (map w_path (written w w2))
  /\ exists p1 p2,
      p1 <> p2
      /\ In (mkWrite p1 (membershipDoc c)) (written w w2)
      /\ In (mkWrite p2 (membershipDoc c)) (written w w2).
Proof.
  intros Hr Hu Hc Hl A1 A2 Hne w1 w2.
  destruct (join_frame env1 w) as (Ft & Fr & Fu & Fc). fold w1 in Ft, Fr, Fu, Fc.
  destruct (join_run env1 w refs u c Hr Hu Hc Hl) as (_ & S1 & _).
  fold w1 in S1. rewrite A1 in S1.
  assert (Hr1 : View.dbRefs (view w1) = Some refs) by congruence.
  assert (Hu1 : View.user (view w1) = Some u) by congruence.
  assert (Hc1 : View.contest (view w1) = Some c) by congruence.
  assert (Hl1 : List.length (View.team (view w1)) = 11%nat) by congruence.
  destruct (join_run env2 w1 refs u c Hr1 Hu1 Hc1 Hl1) as (_ & S2 & _).
  fold w2 in S2. rewrite A2, Ft in S2.
  set (t := View.team (view w)) in *.
  assert (F1 : firstn 3 (joinWrites env1 refs u c t) = joinWrites env1 refs u c t)
    by reflexivity.
  assert (F2 : firstn 3 (joinWrites env2 refs u c t) = joinWrites env2 refs u c t)
    by reflexivity.
  rewrite F1 in S1. rewrite F2, S1, <- app_assoc in S2.
  pose proof (written_app w w2 _ S2) as W. rewrite W.
  split; [reflexivity|split].
  - rewrite map_app. apply NoDup_app; try apply joinWrites_paths_distinct.
    intros a H1 H2. apply Hne.
    apply joinWrites_paths_under in H1 as [s1 ->].
    apply joinWrites_paths_under in H2 as [s2 H2].
    exact (jplFantasy_inj _ _ _ _ _ _ H2).
  - exists (jplFantasy env1 refs u ++ ["contests"; Contest.id c]),
           (jplFantasy env2 refs u ++ ["contests"; Contest.id c]).
    split; [|split].
    + intros H. apply Hne. exact (jplFantasy_inj _ _ _ _ _ _ H).
    + apply in_or_app. left. cbn. tauto.
    + apply in_or_app. right. cbn. tauto.
Qed.

Lemma second_join_duplicates_membership_witness :
  NoDup (map w_path
           (written (readyWorld (Some openContest))
                    (snd (join envOk2
                            (snd (join envOk (readyWorld (Some openContest)))))))).
Proof.
  refine (proj1 (proj2 (second_join_duplicates_membership
                          envOk envOk2 (readyWorld (Some openContest))
                          (useJplRefs "app") (mkUser "uid_1")
                          (contest_of_snapshot "contest_1" (Some openContest))
                          eq_refl eq_refl eq_refl eq_refl eq_refl eq_refl _))).
  discriminate.
Defined.

(** X6. A call of the join never takes the joined mark back: once set, it
    stays set through every later call, also one that fails. *)
Theorem joined_is_never_reset (env : Env) (w : World) :
  View.joined (view w) = true ->
  View.joined (view (snd (join env w))) = true.
Proof.
  intros Hj.
  destruct (View.dbRefs (view w)) as [refs|] eqn:Hr;
    [destruct (View.user (view w)) as [u|] eqn:Hu;
     [destruct (View.contest (view w)) as [c|] eqn:Hc;
      [destruct (Nat.eq_dec (List.length (View.team (view w))) 11) as [Hl|Hl]|]|]|].
  - destruct (join_run env w refs u c Hr Hu Hc Hl) as (_ & _ & _ & H & _).
    rewrite H. now destruct (accepted env =? 3)%nat.
  - destruct (join_guarded env w) as (_ & _ & Hv & _); [tauto|]. now rewrite Hv.
  - destruct (join_guarded env w) as (_ & _ & Hv & _); [tauto|]. now rewrite Hv.
  - destruct (join_guarded env w) as (_ & _ & Hv & _); [tauto|]. now rewrite Hv.
  - destruct (join_guarded env w) as (_ & _ & Hv & _); [tauto|]. now rewrite Hv.
Qed.

Lemma joined_is_never_reset_witness :
  View.joined
    (view (snd (join envFailSecond
                  (snd (join envOk (readyWorld (Some openContest)))))))
  = true.
Proof.
  apply joined_is_never_reset. reflexivity.
Defined.

(** ** The score card and the leaderboard lines *)

Lemma rows_from_uid (i : nat) (l : Entries) :
  map uid (rows_from i l) = map fst l.
Proof.
  revert i. induction l as [|[k s] l IH]; intros i; [reflexivity|].
  cbn [rows_from map]. now rewrite IH.
Qed.

Lemma rows_from_length (i : nat) (l : Entries) :
  List.length (rows_from i l) = List.length l.
Proof. rewrite <- (length_map uid), rows_from_uid. apply length_map. Qed.

Lemma lookupScore_unique (scores : Entries) (k : string) (s : option Score.t) :
  NoDup (map fst scores) -> In (k, s) scores -> lookupScore scores k = s.
Proof.
  unfold lookupScore.
  induction scores as [|[k' s'] scores IH]; intros ND Hin; [destruct Hin|].
  cbn [map fst] in ND. inversion ND as [|? ? Hk ND']; subst.
  cbn [find fst].
  destruct Hin as [E|Hin].
  - injection E as -> ->. now rewrite String.eqb_refl.
  - destruct (k' =? k)%string eqn:E.
    + apply String.eqb_eq in E. subst k'. exfalso. apply Hk.
      now apply (in_map fst) in Hin.
    + now apply IH.
Qed.

Lemma NoDup_firstn {A : Type} (k : nat) (l : list A) :
  NoDup l -> NoDup (firstn k l).
Proof.
  intros ND. rewrite <- (firstn_skipn k l) in ND.
  now apply NoDup_app_remove_r in ND.
Qed.

(** X7. When the keys of the scores object are distinct, the leaderboard
    lines carry distinct user identifiers, and the line of the signed-in
    user shows the very number of the Live Score card. *)
Theorem score_card_agrees_with_leaderboard (scores : Entries) (u : User) :
  NoDup (map fst scores) ->
  NoDup (map uid (leaderboard scores))
  /\ forall r, In r (leaderboard scores) -> isMine (Some u) r = true ->
               pts r = myScore (Some u) scores.
Proof.
  intros ND. split.
  - unfold leaderboard, topK. rewrite rows_from_uid, <- firstn_map.
    apply NoDup_firstn.
    apply (Permutation_NoDup
             (Permutation_map fst (sort_perm byPointsDesc scores)) ND).
  - intros r Hr Hm. cbn [isMine] in Hm. apply String.eqb_eq in Hm.
    apply rows_from_In in Hr as ([k s] & He & Hu & Hp).
    cbn [fst] in Hu. apply topK_incl in He.
    cbn [myScore]. rewrite <- Hm, Hu.
    rewrite (lookupScore_unique scores k s ND He). exact Hp.
Qed.

Lemma score_card_agrees_with_leaderboard_witness :
  NoDup (map uid (leaderboard sampleScores))
  /\ forall r, In r (leaderboard sampleScores) ->
               isMine (Some (mkUser "u3")) r = true ->
               pts r = myScore (Some (mkUser "u3")) sampleScores.
Proof.
  apply score_card_agrees_with_leaderboard.
  repeat constructor; simpl; intuition discriminate.
Defined.

(** X8. The leaderboard shows [min 20 n] lines for [n] score entries, and
    the "No scores yet" line appears exactly when there is no line to
    show. *)
Theorem leaderboard_length (scores : Entries) :
  List.length (leaderboard scores) = Nat.min 20 (List.length scores)
  /\ (showsPlaceholder scores = true <-> leaderboard scores = []).
Proof.
  assert (L : List.length (leaderboard scores) = Nat.min 20 (List.length scores)).
  { unfold leaderboard, topK, ranking. rewrite rows_from_length, length_firstn.
    now rewrite <- (Permutation_length (sort_perm byPointsDesc scores)). }
  split; [exact L|].
  unfold showsPlaceholder. rewrite Nat.eqb_eq. split; intros H.
  - apply length_zero_iff_nil. rewrite L, H. reflexivity.
  - rewrite H in L. cbn [List.length] in L.
    destruct (List.length scores); [reflexivity|discriminate].
Qed.

(** ** The order of the match center *)

Lemma insert_ext {A : Type} (c1 c2 : A -> A -> Z) (x : A) (l : list A) :
  (forall y, In y l -> c1 x y = c2 x y) -> insert c1 x l = insert c2 x l.
Proof.
  induction l as [|y l IH]; intros H; [reflexivity|].
  cbn [insert]. rewrite (H y) by now left.
  destruct (c2 x y <=? 0); [reflexivity|].
  f_equal. apply IH. intros z Hz. apply H. now right.
Qed.

Lemma sort_ext {A : Type} (c1 c2 : A -> A -> Z) (l : list A) :
  (forall x y, In x l -> In y l -> c1 x y = c2 x y) ->
  sort c1 l = sort c2 l.
Proof.
  induction l as [|x l IH]; intros H; [reflexivity|].
  cbn [sort fold_right]. fold (sort c1 l). fold (sort c2 l).
  rewrite IH by (intros; apply H; now right).
  apply insert_ext. intros y Hy. apply H; [now left|right].
  exact (Permutation_in y (Permutation_sym (sort_perm c2 l)) Hy).
Qed.

Lemma sorted_app {A : Type} (R : A -> A -> Prop) (l1 l2 : list A) :
  StronglySorted R l1 -> StronglySorted R l2 ->
  (forall a b, In a l1 -> In b l2 -> R a b) ->
  StronglySorted R (l1 ++ l2).
Proof.
  induction 1 as [|a l1 S1 IH Ha]; intros S2 H; [exact S2|].
  cbn [app]. constructor.
  - apply IH; [exact S2|]. intros; apply H; [now right|assumption].
  - apply Forall_app. split; [exact Ha|].
    apply Forall_forall. intros b Hb. apply H; [now left|exact Hb].
Qed.

Lemma sorted_pairwise {A : Type} (R : A -> A -> Prop) (l : list A) :
  (forall a b, In a l -> In b l -> R a b) -> StronglySorted R l.
Proof.
  induction l as [|a l IH]; intros H; constructor.
  - apply IH. intros; apply H; now right.
  - apply Forall_forall. intros b Hb. apply H; [now left|now right].
Qed.

Lemma rk_range (m : Match.t) : 0 <= rk m <= 3.
Proof.
  unfold rk, statusOrder. destruct (Match.status m) as [s|]; [|lia].
  destruct (s =? "live")%string; [lia|].
  destruct (s =? "upcoming")%string; [lia|].
  destruct (s =? "completed")%string; [lia|].
  destruct (existsb (String.eqb s) objectPrototypeKeys); lia.
Qed.

Lemma grp_In (r : Z) (l : list Match.t) (m : Match.t) :
  In m (grp r l) -> rk m = r.
Proof. unfold grp. rewrite filter_In. intros [_ H]. now apply Z.eqb_eq. Qed.

Lemma filter_grp (a b : Z) (l : list Match.t) :
  filter (fun m => rk m =? a) (grp b l) = if a =? b then grp b l else [].
Proof.
  unfold grp. induction l as [|m l IH]; [now destruct (a =? b)|].
  cbn [filter]. destruct (Z.eqb_spec (rk m) b) as [E|E].
  - cbn [filter]. rewrite IH, E.
    destruct (Z.eqb_spec b a) as [->|N].
    + now rewrite Z.eqb_refl.
    + destruct (Z.eqb_spec a b); [congruence|reflexivity].
  - exact IH.
Qed.

Lemma grp_out_of_range (r : Z) (l : list Match.t) :
  r < 0 \/ 3 < r -> grp r l = [].
Proof.
  intros H. unfold grp. induction l as [|m l IH]; [reflexivity|].
  cbn [filter]. pose proof (rk_range m).
  destruct (Z.eqb_spec (rk m) r); [lia|exact IH].
Qed.

Lemma byRank_groups (l : list Match.t) :
  sort (fun a b => rk a - rk b) l = grp 0 l ++ grp 1 l ++ grp 2 l ++ grp 3 l.
Proof.
  set (key := fun m : Match.t => - rk m).
  assert (CK : forall x y : Match.t, rk x - rk y <= 0 <-> key y <= key x)
    by (unfold key; intros; lia).
  apply (sorted_filters_eq key).
  - exact (sort_sorted _ key CK l).
  - assert (G : forall r, StronglySorted (fun a b => key b <= key a) (grp r l)).
    { intros r. apply sorted_pairwise. intros a b Ha Hb.
      apply grp_In in Ha, Hb. unfold key. lia. }
    repeat apply sorted_app; try apply G;
      intros a b Ha Hb; rewrite ?in_app_iff in Hb; unfold key;
      apply grp_In in Ha;
      repeat (destruct Hb as [Hb|Hb]; [apply grp_In in Hb; lia|]);
      apply grp_In in Hb; lia.
  - intros k. rewrite (sort_filter _ key CK k l).
    assert (E : forall l', filter (fun m => key m =? k) l'
                           = filter (fun m => rk m =? - k) l').
    { intros l'. apply filter_ext. intros m. unfold key.
      destruct (Z.eqb_spec (- rk m) k), (Z.eqb_spec (rk m) (- k));
        try reflexivity; lia. }
    rewrite !E, !filter_app, !filter_grp. fold (grp (- k) l).
    destruct (Z.eqb_spec (- k) 0) as [->|N0]; [now rewrite app_nil_r|].
    destruct (Z.eqb_spec (- k) 1) as [->|N1]; [now rewrite app_nil_r|].
    destruct (Z.eqb_spec (- k) 2) as [->|N2]; [now rewrite app_nil_r|].
    destruct (Z.eqb_spec (- k) 3) as [->|N3]; [reflexivity|].
    cbn [app]. apply grp_out_of_range. lia.
Qed.

Lemma grp_by_status (l : list Match.t) :
  Forall orderable l ->
  grp 0 l = filter (hasStatus "live") l
  /\ grp 1 l = filter (hasStatus "upcoming") l
  /\ grp 2 l = filter (hasStatus "completed") l
  /\ grp 3 l = filter otherStatus l.
Proof.
  intros H. unfold grp.
  repeat split; apply filter_ext_in; intros m Hm;
    rewrite Forall_forall in H; specialize (H m Hm);
    unfold orderable in H; unfold rk, otherStatus, hasStatus;
    destruct (Match.status m) as [s|]; try reflexivity;
    unfold statusOrder in *;
    destruct (s =? "live")%string eqn:E1;
      try (apply String.eqb_eq in E1; subst s; reflexivity);
    destruct (s =? "upcoming")%string eqn:E2;
      try (apply String.eqb_eq in E2; subst s; reflexivity);
    destruct (s =? "completed")%string eqn:E3;
      try (apply String.eqb_eq in E3; subst s; reflexivity);
    destruct (existsb (String.eqb s) objectPrototypeKeys);
      try congruence; reflexivity.
Qed.

(** X9. The match center lists the live matches first, then the upcoming,
    then the completed, then the matches of any other or no status, each
    group in the order of the snapshot; this holds whenever no status is a
    name that objects inherit (on which the comparator yields no number). *)
Theorem matches_sorted_by_status (l : list Match.t) :
  Forall orderable l ->
  sortMatches l
  = filter (hasStatus "live") l ++ filter (hasStatus "upcoming") l
    ++ filter (hasStatus "completed") l ++ filter otherStatus l.
Proof.
  intros H.
  destruct (grp_by_status l H) as (<- & <- & <- & <-).
  rewrite <- byRank_groups. unfold sortMatches.
  apply sort_ext. intros x y Hx Hy.
  rewrite Forall_forall in H.
  pose proof (H x Hx) as Ox. pose proof (H y Hy) as Oy.
  unfold orderable in Ox, Oy. unfold byStatus, rk.
  destruct (statusOrder (Match.status x)); [|congruence].
  destruct (statusOrder (Match.status y)); [reflexivity|congruence].
Qed.

Lemma matches_sorted_by_status_witness :
  sortMatches seedMatches
  = filter (hasStatus "live") seedMatches
    ++ filter (hasStatus "upcoming") seedMatches
    ++ filter (hasStatus "completed") seedMatches
    ++ filter otherStatus seedMatches.
Proof.
  apply matches_sorted_by_status.
  repeat constructor; discriminate.
Defined.

(** ** References the client accepts and refuses *)

Lemma splitSlash_plain (s : string) : noSlash s = true -> splitSlash s = [s].
Proof.
  induction s as [|a s IH]; [reflexivity|].
  cbn [noSlash splitSlash]. rewrite andb_true_iff, negb_true_iff.
  intros [Ha Hs]. rewrite Ha, (IH Hs). reflexivity.
Qed.

Lemma hasDoubleSlash_plain (s : string) :
  noSlash s = true -> hasDoubleSlash s = false.
Proof.
  induction s as [|a s IH]; [reflexivity|].
  cbn [noSlash hasDoubleSlash]. rewrite andb_true_iff, negb_true_iff.
  intros [Ha Hs]. rewrite (IH Hs), Ha.
  now destruct s.
Qed.

(** A plain, non-empty application identifier gives a base reference of
    five segments, which the client refuses. *)
Lemma baseDocRef_plain (appId : string) :
  noSlash appId = true -> appId <> "" ->
  exists e, baseDocRef appId = Thrown e.
Proof.
  intros Hn He. unfold baseDocRef, docRef, segmentsOf.
  cbn [existsb hasDoubleSlash Ascii.eqb Bool.eqb andb orb].
  rewrite (hasDoubleSlash_plain _ Hn). cbn [orb].
  cbn [flat_map]. rewrite (splitSlash_plain _ Hn).
  assert (F : filter (fun x => negb (x =? "")%string) [appId] = [appId]).
  { cbn [filter]. destruct (String.eqb_spec appId ""); [contradiction|reflexivity]. }
  rewrite F. cbn. eexists. reflexivity.
Qed.

Example baseDocRef_two_segments : baseDocRef "jpl/prod" = Done sampleBase.
Proof. reflexivity. Qed.

(** ** Start-up *)

Lemma init_cases (win : Window) (env : AuthEnv) :
  let b := init win env fbInitial in
  (listening b = false /\ Fb.status (boot_state b) = StError)
  \/ (listening b = true
      /\ boot_state b = setHandles (app_id win) fbInitial
      /\ truthyS (app_id win) = true).
Proof.
  unfold init.
  destruct (truthyS (app_id win)) eqn:Ha; cbn [negb orb]; [|now left].
  destruct (truthy (firebase_config win)); cbn [negb]; [|now left].
  destruct (sdk_error env); [now left|].
  destruct (initial_auth_token win) as [tok|];
    [destruct (truthyS (Some tok)); [destruct (token_error env)|]|];
    destruct (anon_error env); cbn; auto.
Qed.

Lemma onAuth_inv (s : Fb.t) (u : option User) :
  listeningInv s -> listeningInv (onAuth s u).
Proof.
  intros (Hd & Ha & _ & _). unfold listeningInv. cbn.
  repeat split; try assumption; destruct u; cbn; discriminate.
Qed.

Lemma fold_onAuth_inv (events : list (option User)) (s : Fb.t) :
  listeningInv s -> listeningInv (fold_left onAuth events s).
Proof.
  revert s. induction events as [|u events IH]; intros s H; [exact H|].
  cbn [fold_left]. apply IH. now apply onAuth_inv.
Qed.

Lemma fbAfter_cases (win : Window) (env : AuthEnv) (events : list (option User)) :
  Fb.status (fbAfter win env events) = StError
  \/ listeningInv (fbAfter win env events).
Proof.
  unfold fbAfter.
  destruct (init_cases win env) as [(Hl & He)|(Hl & Hs & Ha)]; rewrite Hl.
  - now left.
  - right. apply fold_onAuth_inv. rewrite Hs.
    unfold listeningInv. cbn. repeat split; try assumption; discriminate.
Qed.

Lemma fold_onAuth_handles (events : list (option User)) (s : Fb.t) :
  Fb.db (fold_left onAuth events s) = Fb.db s
  /\ Fb.appId (fold_left onAuth events s) = Fb.appId s.
Proof.
  revert s. induction events as [|u events IH]; intros s; [now split|].
  cbn [fold_left]. destruct (IH (onAuth s u)) as [-> ->]. now split.
Qed.

(** Once the SDK handles exist, the state keeps [db] and [appId] for good. *)
Lemma fbAfter_handles (win : Window) (env : AuthEnv)
  (events : list (option User)) :
  truthyS (app_id win) = true ->
  firebase_config win <> None ->
  sdk_error env = None ->
  Fb.db (fbAfter win env events) = true
  /\ Fb.appId (fbAfter win env events) = app_id win.
Proof.
  intros Ha Hc Hs.
  assert (B : Fb.db (boot_state (init win env fbInitial)) = true
              /\ Fb.appId (boot_state (init win env fbInitial)) = app_id win).
  { unfold init. rewrite Ha, Hs.
    destruct (firebase_config win); [|congruence]. cbn [truthy negb orb].
    destruct (initial_auth_token win) as [tok|];
      [destruct (truthyS (Some tok)); [destruct (token_error env)|]|];
      destruct (anon_error env); cbn; now split. }
  unfold fbAfter. destruct (listening (init win env fbInitial)); [|exact B].
  destruct (fold_onAuth_handles events (boot_state (init win env fbInitial)))
    as [-> ->]. exact B.
Qed.

(** X10. Without an application identifier (missing or empty) or without
    a Firebase configuration, start-up attempts no sign-in and the app
    renders the setup error with the missing-globals message, whatever
    happens afterwards. *)
Theorem missing_config_is_setup_error (win : Window) (env : AuthEnv) :
  truthyS (app_id win) = false \/ firebase_config win = None ->
  attempts (init win env fbInitial) = []
  /\ forall events,
      render (fbAfter win env events)
      = Done (SetupError "Missing __app_id or __firebase_config on window.").
Proof.
  intros H.
  assert (E : init win env fbInitial
              = mkBoot (setError "Missing __app_id or __firebase_config on window."
                                 fbInitial) [] false).
  { unfold init. destruct H as [-> | ->]; [reflexivity|].
    now rewrite orb_true_r. }
  split; [now rewrite E|].
  intros events. unfold fbAfter. rewrite E. reflexivity.
Qed.

Lemma missing_config_is_setup_error_witness :
  attempts (init (mkWindow (Some "") (Some (mkConfig "jpl")) None)
                 tokenRejected fbInitial) = []
  /\ forall events,
      render (fbAfter (mkWindow (Some "") (Some (mkConfig "jpl")) None)
                      tokenRejected events)
      = Done (SetupError "Missing __app_id or __firebase_config on window.").
Proof.
  apply missing_config_is_setup_error. left. reflexivity.
Defined.

(** X11. Whenever a render of the app yields the main screen, the
    signed-in user is present, [useJplRefs] has returned references (the
    client accepted the base reference), and the seeding effect has its
    condition met. *)
Theorem main_screen_has_user_and_refs (win : Window) (env : AuthEnv)
  (events : list (option User)) :
  render (fbAfter win env events) = Done MainScreen ->
  exists u refs,
    Fb.user (fbAfter win env events) = Some u
    /\ useJplRefsChecked (Fb.db (fbAfter win env events))
                         (Fb.appId (fbAfter win env events))
       = Done (Some refs)
    /\ seedingStarts (fbAfter win env events) = true.
Proof.
  intros H. unfold render in H.
  destruct (useJplRefsChecked (Fb.db (fbAfter win env events))
                              (Fb.appId (fbAfter win env events)))
    as [r|e] eqn:Er; [|discriminate].
  assert (R : Fb.status (fbAfter win env events) = StReady).
  { destruct (Fb.status (fbAfter win env events)); try discriminate; reflexivity. }
  destruct (fbAfter_cases win env events) as [E|(Hd & Ha & _ & Hu)];
    [congruence|].
  specialize (Hu R).
  destruct (Fb.user (fbAfter win env events)) as [u|] eqn:Eu; [|congruence].
  unfold seedingStarts. rewrite R, Hd, Ha.
  unfold useJplRefsChecked in Er. rewrite Hd, Ha in Er. cbn [negb orb] in Er.
  destruct (Fb.appId (fbAfter win env events)) as [id|]; [|discriminate].
  destruct (baseDocRef id) as [p|e]; [|discriminate].
  injection Er as <-.
  exists u, (mkDbRefs p). repeat split.
Qed.

Lemma main_screen_has_user_and_refs_witness :
  exists u refs,
    Fb.user (fbAfter sampleWindow tokenRejected [Some (mkUser "uid_1")]) = Some u
    /\ useJplRefsChecked
         (Fb.db (fbAfter sampleWindow tokenRejected [Some (mkUser "uid_1")]))
         (Fb.appId (fbAfter sampleWindow tokenRejected [Some (mkUser "uid_1")]))
       = Done (Some refs)
    /\ seedingStarts (fbAfter sampleWindow tokenRejected [Some (mkUser "uid_1")])
       = true.
Proof.
  apply main_screen_has_user_and_refs. reflexivity.
Defined.

(** X12. When the globals are present, the SDK starts and anonymous
    sign-in works, the sign-in cannot fail, whether a custom token is
    given or not and whether it is accepted or rejected: a rejected token
    is followed by an anonymous sign-in, the listener is registered with
    the status at authing, and after any series of auth events that ends
    with a user the status is ready with that user; the render then yields
    the main screen provided the client accepts the base reference. *)
Theorem anonymous_sign_in_rescues_start_up (win : Window) (env : AuthEnv) :
  truthyS (app_id win) = true ->
  firebase_config win <> None ->
  sdk_error env = None ->
  anon_error env = None ->
  listening (init win env fbInitial) = true
  /\ Fb.status (boot_state (init win env fbInitial)) = StAuthing
  /\ (token_error env <> None ->
      In Anonymous (attempts (init win env fbInitial)))
  /\ forall events u,
      Fb.status (fbAfter win env (events ++ [Some u])) = StReady
      /\ Fb.user (fbAfter win env (events ++ [Some u])) = Some u
      /\ (forall id p, app_id win = Some id -> baseDocRef id = Done p ->
          render (fbAfter win env (events ++ [Some u])) = Done MainScreen).
Proof.
  intros Ha Hc Hs Hn.
  assert (L : listening (init win env fbInitial) = true
              /\ boot_state (init win env fbInitial)
                 = setHandles (app_id win) fbInitial
              /\ (token_error env <> None ->
                  In Anonymous (attempts (init win env fbInitial)))).
  { unfold init. rewrite Ha, Hs, Hn.
    destruct (firebase_config win); [|congruence]. cbn [truthy negb orb].
    destruct (initial_auth_token win) as [tok|];
      [destruct (truthyS (Some tok)); [destruct (token_error env)|]|];
      cbn; repeat split; intros; try congruence; tauto. }
  destruct L as (L1 & L2 & L3).
  split; [exact L1|split; [now rewrite L2|split; [exact L3|]]].
  intros events u.
  assert (S1 : Fb.status (fbAfter win env (events ++ [Some u])) = StReady
               /\ Fb.user (fbAfter win env (events ++ [Some u])) = Some u).
  { unfold fbAfter. rewrite L1, fold_left_app. cbn. now split. }
  destruct S1 as [S1 S2]. split; [exact S1|split; [exact S2|]].
  intros id p Hid Hp.
  destruct (fbAfter_handles win env (events ++ [Some u]) Ha Hc Hs) as [Hd Hi].
  unfold render, useJplRefsChecked. rewrite Hd, Hi, Ha, Hid, Hp, S1.
  reflexivity.
Qed.

Lemma anonymous_sign_in_rescues_start_up_witness :
  listening (init sampleWindow tokenRejected fbInitial) = true
  /\ attempts (init sampleWindow tokenRejected fbInitial)
     = [CustomToken "token_1"; Anonymous]
  /\ render (fbAfter sampleWindow tokenRejected [None; Some (mkUser "uid_1")])
     = Done MainScreen.
Proof.
  pose proof (anonymous_sign_in_rescues_start_up sampleWindow tokenRejected
                eq_refl ltac:(discriminate) eq_refl eq_refl)
    as (H1 & _ & _ & H4).
  split; [exact H1|split; [reflexivity|]].
  exact (proj2 (proj2 (H4 [None] (mkUser "uid_1")))
               "jpl/prod" sampleBase eq_refl eq_refl).
Defined.

(** X17. With a plain application identifier (non-empty, without a slash)
    the app cannot render once start-up has created the SDK handles:
    [useJplRefs] asks for a document reference of five segments, which the
    client refuses, so every render after that throws, whatever the
    sign-in did and whatever auth events arrive. *)
Theorem plain_app_id_breaks_render (win : Window) (env : AuthEnv)
  (id : string) (events : list (option User)) :
  app_id win = Some id ->
  noSlash id = true -> id <> "" ->
  firebase_config win <> None ->
  sdk_error env = None ->
  exists e, render (fbAfter win env events) = Thrown e.
Proof.
  intros Hid Hn He Hc Hs.
  assert (Ha : truthyS (app_id win) = true).
  { rewrite Hid. cbn [truthyS].
    destruct (String.eqb_spec id ""); [contradiction|reflexivity]. }
  destruct (fbAfter_handles win env events Ha Hc Hs) as [Hd Hi].
  destruct (baseDocRef_plain id Hn He) as [e Hb].
  exists e. unfold render, useJplRefsChecked.
  rewrite Hd, Hi, Ha, Hid, Hb. reflexivity.
Qed.

Lemma plain_app_id_breaks_render_witness :
  exists e,
    render (fbAfter plainWindow tokenRejected [Some (mkUser "uid_1")])
    = Thrown e.
Proof.
  apply (plain_app_id_breaks_render plainWindow tokenRejected "app");
    try reflexivity; discriminate.
Defined.

(** ** Seeding *)

Lemma path_eqb_eq (a b : path) : path_eqb a b = true <-> a = b.
Proof.
  unfold path_eqb. destruct (list_eq_dec string_dec a b); split;
    congruence.
Qed.

Lemma distinctb_NoDup (l : list path) : distinctb l = true -> NoDup l.
Proof.
  induction l as [|p l IH]; [constructor|].
  cbn [distinctb]. rewrite andb_true_iff, negb_true_iff.
  intros [Hn Hd]. constructor; [|now apply IH].
  intros Hin.
  assert (E : existsb (path_eqb p) l = true).
  { apply existsb_exists. exists p. split; [exact Hin|now apply path_eqb_eq]. }
  congruence.
Qed.

(** The seed paths are the base path followed by 46 fixed endings. *)
Lemma seedPaths_endings (base : path) :
  seedPaths base = map (app base) (seedPaths []).
Proof. reflexivity. Qed.

Lemma seedPaths_NoDup (base : path) : NoDup (seedPaths base).
Proof.
  rewrite seedPaths_endings.
  apply Finite.Injective_map_NoDup.
  - intros a b H. now apply app_inv_head in H.
  - apply distinctb_NoDup. vm_compute. reflexivity.
Qed.

Lemma seedPaths_length (base : path) :
  List.length (seedPaths base) = 46%nat.
Proof. reflexivity. Qed.

Lemma inCollection_teams (base : path) (id : string) :
  inCollection (base ++ ["teams"]) (colDoc base "teams" id) = true.
Proof.
  unfold colDoc, inCollection.
  destruct (base ++ ["teams"; id]) as [|x r] eqn:E.
  - destruct base; discriminate.
  - rewrite <- E. apply path_eqb_eq.
    change (base ++ ["teams"; id]) with (base ++ ["teams"] ++ [id]).
    rewrite app_assoc. apply removelast_last.
Qed.

Lemma teamsEmpty_after (base : path) (docs rest : list path) (id : string) :
  teamsEmpty base (docs ++ colDoc base "teams" id :: rest) = false.
Proof.
  unfold teamsEmpty. rewrite existsb_app. cbn [existsb].
  rewrite inCollection_teams. now rewrite orb_true_r.
Qed.

(** A run of the writes stops at the first rejection and keeps what was
    written before it. *)
Lemma writeDocs_prefix (ok : nat -> bool) (ps : list path) (k : nat)
  (docs : list path) :
  exists j,
    (j <= List.length ps)%nat
    /\ snd (writeDocs ok k ps docs) = docs ++ firstn j ps
    /\ (forall i, (i < j)%nat -> ok (k + i)%nat = true)
    /\ ((j < List.length ps)%nat ->
        ok (k + j)%nat = false /\ exists e, fst (writeDocs ok k ps docs) = Thrown e)
    /\ (j = List.length ps -> fst (writeDocs ok k ps docs) = Done tt).
Proof.
  revert k docs. induction ps as [|p ps IH]; intros k docs.
  - exists 0%nat. cbn. rewrite app_nil_r. repeat split; try lia.
  - cbn [writeDocs]. destruct (ok k) eqn:E.
    + destruct (IH (S k) (docs ++ [p])) as (j & Hj & Hs & Hok & Hf & Hd).
      exists (S j). cbn [List.length firstn].
      split; [lia|split; [|split; [|split]]].
      * rewrite Hs, <- app_assoc. reflexivity.
      * intros i Hi. destruct i as [|i]; [now rewrite Nat.add_0_r|].
        replace (k + S i)%nat with (S k + i)%nat by lia. apply Hok. lia.
      * intros H. replace (k + S j)%nat with (S k + j)%nat by lia.
        apply Hf. lia.
      * intros H. apply Hd. lia.
    + exists 0%nat. cbn [List.length firstn snd fst].
      rewrite app_nil_r, Nat.add_0_r.
      split; [lia|split; [reflexivity|split; [|split]]].
      * intros i Hi. lia.
      * intros _. split; [exact E|eexists; reflexivity].
      * intros H. discriminate.
Qed.

Lemma seed_skips_when_teams_exist (env : SeedEnv) (appId : string)
  (base : path) (docs : list path) :
  baseDocRef appId = Done base ->
  teamsEmpty base docs = false ->
  snd (seedInitialDataIfNeeded env appId docs) = docs.
Proof.
  intros Hb H. unfold seedInitialDataIfNeeded. rewrite Hb, H.
  now destruct (getDocs_ok env).
Qed.

(** X13. When the client accepts the base reference of a non-empty
    application identifier and the store holds no team document, a run whose writes are all accepted creates the 46
    seed documents, at pairwise distinct paths and in program order, the
    contest document among them; from then on every further run, in any
    circumstances, writes nothing. *)
Theorem seeding_happens_once (env : SeedEnv) (appId : string) (base : path)
  (docs : list path) :
  appId <> "" ->
  baseDocRef appId = Done base ->
  getDocs_ok env = true ->
  (forall k, seed_ok env k = true) ->
  teamsEmpty base docs = true ->
  let docs' := snd (seedInitialDataIfNeeded env appId docs) in
  fst (seedInitialDataIfNeeded env appId docs) = Done tt
  /\ docs' = docs ++ seedPaths base
  /\ List.length (seedPaths base) = 46%nat
  /\ NoDup (seedPaths base)
  /\ In (contestPath base) docs'
  /\ forall env', snd (seedInitialDataIfNeeded env' appId docs') = docs'.
Proof.
  intros _ Hb Hg Hok He docs'.
  assert (R : seedInitialDataIfNeeded env appId docs
              = writeDocs (seed_ok env) 0 (seedPaths base) docs).
  { unfold seedInitialDataIfNeeded. now rewrite Hb, Hg, He. }
  destruct (writeDocs_prefix (seed_ok env) (seedPaths base) 0 docs)
    as (j & Hj & Hs & _ & Hf & Hd).
  assert (J : j = List.length (seedPaths base)).
  { destruct (Nat.eq_dec j (List.length (seedPaths base))) as [E|N]; [exact E|].
    destruct Hf as [Hf _]; [lia|]. rewrite Hok in Hf. discriminate. }
  assert (D : docs' = docs ++ seedPaths base).
  { unfold docs'. rewrite R, Hs, J. now rewrite firstn_all. }
  split; [rewrite R; now apply Hd|].
  split; [exact D|].
  split; [reflexivity|].
  split; [apply seedPaths_NoDup|].
  split.
  - rewrite D. apply in_or_app. right.
    unfold seedPaths, contestPath. rewrite !in_app_iff. right. right.
    cbn. tauto.
  - intros env'. apply (seed_skips_when_teams_exist env' appId base _ Hb).
    rewrite D. apply (teamsEmpty_after base docs _ "team_1").
Qed.

Lemma seeding_happens_once_witness :
  snd (seedInitialDataIfNeeded (mkSeedEnv true (fun _ => true)) "jpl/prod" [])
  = [] ++ seedPaths sampleBase.
Proof.
  refine (proj1 (proj2 (seeding_happens_once
                          (mkSeedEnv true (fun _ => true)) "jpl/prod"
                          sampleBase []
                          _ eq_refl eq_refl (fun _ => eq_refl) eq_refl))).
  discriminate.
Defined.

(** X14. When the client accepts the base reference of a non-empty
    application identifier, a run that gets its first write accepted and one of its first 45 writes rejected throws,
    leaves the contest document uncreated, and is never made up for: the
    team document it wrote makes every later run return without writing. *)
Theorem failed_seeding_is_never_repaired (env : SeedEnv) (appId : string)
  (base : path) (docs : list path) (k : nat) :
  appId <> "" ->
  baseDocRef appId = Done base ->
  getDocs_ok env = true ->
  teamsEmpty base docs = true ->
  ~ In (contestPath base) docs ->
  seed_ok env 0 = true ->
  (k <= 44)%nat -> seed_ok env k = false ->
  let docs' := snd (seedInitialDataIfNeeded env appId docs) in
  (exists e, fst (seedInitialDataIfNeeded env appId docs) = Thrown e)
  /\ ~ In (contestPath base) docs'
  /\ forall env', snd (seedInitialDataIfNeeded env' appId docs') = docs'.
Proof.
  intros _ Hb Hg He Hc H0 Hk Hf docs'.
  assert (R : seedInitialDataIfNeeded env appId docs
              = writeDocs (seed_ok env) 0 (seedPaths base) docs).
  { unfold seedInitialDataIfNeeded. now rewrite Hb, Hg, He. }
  destruct (writeDocs_prefix (seed_ok env) (seedPaths base) 0 docs)
    as (j & Hj & Hs & Hok & Hstop & _).
  rewrite seedPaths_length in Hj, Hstop. cbn [Nat.add] in Hok, Hstop.
  assert (J1 : (j <= k)%nat).
  { destruct (Nat.le_gt_cases j k) as [L|G]; [exact L|].
    rewrite (Hok k G) in Hf. discriminate. }
  assert (J0 : (1 <= j)%nat).
  { destruct j as [|j]; [|lia].
    destruct Hstop as [Hz _]; [lia|]. congruence. }
  assert (D : docs' = docs ++ firstn j (seedPaths base)).
  { unfold docs'. now rewrite R, Hs. }
  split; [|split].
  - rewrite R. apply Hstop. lia.
  - rewrite D, in_app_iff. intros [H|H]; [now apply Hc|].
    revert H.
    apply (beyond_firstn_absent (seedPaths base) j 44 (contestPath base)
             (seedPaths_NoDup base)); [lia|reflexivity].
  - intros env'. apply (seed_skips_when_teams_exist env' appId base _ Hb).
    rewrite D.
    destruct j as [|j]; [lia|].
    change (firstn (S j) (seedPaths base))
      with (colDoc base "teams" "team_1" :: firstn j (tl (seedPaths base))).
    apply teamsEmpty_after.
Qed.

Lemma failed_seeding_is_never_repaired_witness :
  ~ In (contestPath sampleBase)
       (snd (seedInitialDataIfNeeded seedEnvFailFourth "jpl/prod" [])).
Proof.
  refine (proj1 (proj2 (failed_seeding_is_never_repaired
                          seedEnvFailFourth "jpl/prod" sampleBase [] 3
                          _ eq_refl eq_refl eq_refl _ eq_refl _ eq_refl))).
  - discriminate.
  - intros [].
  - lia.
Defined.

(** X18. With a plain application identifier (non-empty, without a slash)
    the seeding routine never reaches the store: building the base
    reference throws, and the run ends with no document read or written,
    whatever the store would have answered. *)
Theorem plain_app_id_seeds_nothing (env : SeedEnv) (appId : string)
  (docs : list path) :
  noSlash appId = true -> appId <> "" ->
  snd (seedInitialDataIfNeeded env appId docs) = docs
  /\ exists e, fst (seedInitialDataIfNeeded env appId docs) = Thrown e.
Proof.
  intros Hn He. destruct (baseDocRef_plain appId Hn He) as [e Hb].
  unfold seedInitialDataIfNeeded. rewrite Hb. split; [reflexivity|].
  exists e. reflexivity.
Qed.

Lemma plain_app_id_seeds_nothing_witness :
  snd (seedInitialDataIfNeeded (mkSeedEnv true (fun _ => true)) "app" []) = []
  /\ exists e,
      fst (seedInitialDataIfNeeded (mkSeedEnv true (fun _ => true)) "app" [])
      = Thrown e.
Proof.
  apply plain_app_id_seeds_nothing; [reflexivity|discriminate].
Defined.

(** ** Seeded players *)

Lemma decimal_inj (i j : nat) : decimal i = decimal j -> i = j.
Proof.
  unfold decimal. intros H.
  apply Unsigned.to_uint_inj.
  pose proof (NilEmpty.usu (Nat.to_uint i)) as Hi.
  pose proof (NilEmpty.usu (Nat.to_uint j)) as Hj.
  rewrite H in Hi. congruence.
Qed.

(** X15. Every player the seeding routine creates has one of the three
    roles the cost rule names, so its cost is the one of the lookup table;
    and two seeded players never share an identifier. *)
Theorem seeded_players_are_well_formed (i j : nat) :
  creditCost_spec (Player.role (seedPlayer i))
  = Some (creditCost (Player.role (seedPlayer i)))
  /\ (Player.id (seedPlayer i) = Player.id (seedPlayer j) -> i = j).
Proof.
  split.
  - unfold seedPlayer. cbn [Player.role].
    pose proof (Nat.mod_upper_bound i 3) as B.
    destruct (i mod 3)%nat as [|[|[|n]]]; try reflexivity. lia.
  - unfold seedPlayer. cbn [Player.id]. intros H.
    cbn [String.append] in H. injection H as H. now apply decimal_inj.
Qed.

(** ** Clicks touch one identifier only *)

Lemma without_idem (p : Player) (t : list Player) :
  without p (without p t) = without p t.
Proof.
  unfold without. induction t as [|q t IH]; [reflexivity|].
  cbn [filter].
  destruct (negb (Player.id q =? Player.id p)%string) eqn:E; [|exact IH].
  cbn [filter]. rewrite E. now rewrite IH.
Qed.

(** X16. A click on a player's button never adds, removes or reorders a
    player with another identifier: the roster with that identifier
    filtered out is the same before and after the click. *)
Theorem click_touches_one_identifier (team : list Player) (p : Player) :
  without p (toggle team p) = without p team.
Proof.
  destruct (selected team p) eqn:Hs.
  - rewrite (toggle_selected _ _ Hs). apply without_idem.
  - destruct (canAdd team p) eqn:Ha.
    + rewrite (toggle_add _ _ Hs Ha). unfold without.
      rewrite filter_app. cbn [filter]. rewrite String.eqb_refl. cbn [negb].
      apply app_nil_r.
    + now rewrite (toggle_refused _ _ Hs Ha).
Qed.
